(** * Conflict tracker: event normalisation and merge pipeline

    A shallow embedding of the Python scripts

    - [scripts/twitter-to-events.py]  (classifier, title builder, language
      heuristic, merge engine, ticker builder, entry point),
    - [scripts/safe-update.py]        (append-only updater with its guard),
    - [scripts/translate-existing-events.py] (translation completion),

    together with the properties of the specification that concern them.

    Conventions of the embedding:

    - a Python [str] is the list of its code points ([pystr]); literals of
      the source are written as UTF-8 string literals and decoded by [u];
    - a Python [dict] with a fixed schema (an event, a tweet) is a record
      whose fields are [option]s, [None] standing for an absent key; the
      dictionaries keyed by language and by field name are [gmap]s;
    - the sets built by the source are [gset]s;
    - [str.lower] is the Unicode lower-casing of the Python runtime; it is a
      parameter of every definition that calls it;
    - the translation backend and the search tool are external: their
      replies are inputs of the functions that call them. *)

From Stdlib Require Import ZArith NArith Ascii String.
From stdpp Require Import gmap strings list fin_maps sorting pretty.

Local Open Scope Z_scope.

(** ** Python strings *)

Module PyStr.

(** A string is the sequence of its Unicode code points. *)
Abbreviation pystr := (list N).

(** UTF-8 decoding of the bytes of a literal; [k] continuation bytes are
    still expected for the code point accumulated in [acc]. *)
Fixpoint utf8_go (acc : N) (k : nat) (bs : list N) : pystr :=
  match bs with
  | [] => []
  | b :: bs' =>
    match k with
    | S k' =>
      let acc' := (acc * 64 + b mod 64)%N in
      match k' with
      | O => acc' :: utf8_go 0%N O bs'
      | S _ => utf8_go acc' k' bs'
      end
    | O =>
      if (b <? 128)%N then b :: utf8_go 0%N O bs'
      else if (b <? 224)%N then utf8_go (b mod 32)%N 1%nat bs'
      else if (b <? 240)%N then utf8_go (b mod 16)%N 2%nat bs'
      else utf8_go (b mod 8)%N 3%nat bs'
    end
  end.

Definition u (s : string) : pystr :=
  utf8_go 0%N O (map N_of_ascii (list_ascii_of_string s)).

(** [str.isspace] on one character: the white space of the Unicode
    database (bidirectional type WS, B or S, or category Zs). *)
Definition isspace (c : N) : bool :=
  ((9 <=? c) && (c <=? 13) || (28 <=? c) && (c <=? 32)
   || (c =? 133) || (c =? 160) || (c =? 5760)
   || (8192 <=? c) && (c <=? 8202)
   || (c =? 8232) || (c =? 8233) || (c =? 8239) || (c =? 8287)
   || (c =? 12288))%N.

Fixpoint lstrip (s : pystr) : pystr :=
  match s with
  | [] => []
  | c :: s' => if isspace c then lstrip s' else s
  end.

Definition rstrip (s : pystr) : pystr := reverse (lstrip (reverse s)).

(** [s.strip()] *)
Definition strip (s : pystr) : pystr := rstrip (lstrip s).

(** [s.split()] : the maximal runs of non-space characters. *)
Fixpoint split_go (cur : pystr) (s : pystr) : list pystr :=
  match s with
  | [] => match cur with [] => [] | _ => [reverse cur] end
  | c :: s' =>
    if isspace c
    then match cur with [] => split_go [] s' | _ => reverse cur :: split_go [] s' end
    else split_go (c :: cur) s'
  end.

Definition split (s : pystr) : list pystr := split_go [] s.

(** [sep.join(parts)] *)
Fixpoint join (sep : pystr) (parts : list pystr) : pystr :=
  match parts with
  | [] => []
  | [p] => p
  | p :: rest => p ++ sep ++ join sep rest
  end.

Fixpoint starts_with (p s : pystr) : bool :=
  match p, s with
  | [], _ => true
  | _ :: _, [] => false
  | a :: p', b :: s' => (a =? b)%N && starts_with p' s'
  end.

(** [p in s] *)
Fixpoint contains (p s : pystr) : bool :=
  starts_with p s ||
  match s with
  | [] => false
  | _ :: s' => contains p s'
  end.

(** [s.rfind(c)] for a one-character needle: the greatest index holding
    [c], or [-1]. *)
Fixpoint rfind_from (i : Z) (c : N) (s : pystr) : Z :=
  match s with
  | [] => -1
  | d :: s' =>
    let r := rfind_from (i + 1) c s' in
    if (0 <=? r) then r else if (d =? c)%N then i else -1
  end.

Definition rfind (c : N) (s : pystr) : Z := rfind_from 0 c s.

(** [s < t] on strings: lexicographic on code points. *)
Fixpoint str_ltb (s t : pystr) : bool :=
  match s, t with
  | [], [] => false
  | [], _ :: _ => true
  | _ :: _, [] => false
  | a :: s', b :: t' =>
    if (a <? b)%N then true
    else if (a =? b)%N then str_ltb s' t' else false
  end.

(** The truth value of a string: it is not empty. *)
Definition truthy (s : pystr) : bool :=
  match s with [] => false | _ :: _ => true end.

(** The lower-casing of the ASCII letters; on ASCII text it is what
    [str.lower] computes. *)
Definition ascii_lower (s : pystr) : pystr :=
  map (λ c, if ((65 <=? c) && (c <=? 90))%N then (c + 32)%N else c) s.

End PyStr.
Import PyStr.


(** ** Stable descending sort

    [list.sort(key=..., reverse=True)] is stable: elements with equal keys
    keep their relative order.  A stable sort is determined by its input, so
    it is modelled by stable insertion. *)

Section StableSort.
Context {A K : Type} (key : A → K) (ltb : K → K → bool).

(** [x] stood before every element of [l]: it stays before those whose
    key is not greater. *)
Fixpoint insert_desc (x : A) (l : list A) : list A :=
  match l with
  | [] => [x]
  | y :: l' => if ltb (key x) (key y) then y :: insert_desc x l' else x :: l
  end.

Definition sort_desc (l : list A) : list A := foldr insert_desc [] l.

(** [a] may stand before [b] in a descending list. *)
Definition ge_key (a b : A) : Prop := ltb (key a) (key b) = false.

End StableSort.

(** [l[:m]] for an integer bound: a negative bound counts from the end. *)
Definition slice_to {A} (m : Z) (l : list A) : list A :=
  let len := Z.of_nat (length l) in
  let stop := if m <? 0 then Z.max 0 (len + m) else m in
  take (Z.to_nat stop) l.

(** ** Events *)

(** The values an identifier takes in the JSON documents: [null], an
    integer or a string.  They are hashable and compare structurally. *)
Inductive pyval :=
  | PNone
  | PInt (n : Z)
  | PStr (s : pystr).

Global Instance pyval_eq_dec : EqDecision pyval.
Proof. solve_decision. Defined.

Definition pyval_to_sum (v : pyval) : unit + (Z + pystr) :=
  match v with
  | PNone => inl ()
  | PInt n => inr (inl n)
  | PStr s => inr (inr s)
  end.

Definition pyval_of_sum (x : unit + (Z + pystr)) : pyval :=
  match x with
  | inl _ => PNone
  | inr (inl n) => PInt n
  | inr (inr s) => PStr s
  end.

Global Instance pyval_countable : Countable pyval.
Proof.
  apply (inj_countable' pyval_to_sum pyval_of_sum).
  by intros [].
Defined.

(** One entry of [translations]: field name to text. *)
Abbreviation trans_entry := (gmap string pystr).

(** An event of the store.  [ev_location] carries the two coordinates in
    hundredths of a degree; nothing below inspects them. *)
Record Event := mkEvent {
  ev_id : option pyval;
  ev_type : option pystr;
  ev_country : option pystr;
  ev_title : option pystr;
  ev_desc : option pystr;
  ev_location : option (Z * Z);
  ev_locationName : option pystr;
  ev_time : option pystr;
  ev_source : option pystr;
  ev_tweetId : option pyval;
  ev_url : option pystr;
  ev_isNew : option bool;
  ev_translations : option (gmap string trans_entry)
}.

(** ** Merge engine ([merge_events], twitter-to-events.py) *)

(** [e.get("tweetId", e.get("id"))] *)
Definition identity_key (e : Event) : pyval :=
  match ev_tweetId e with
  | Some v => v
  | None => match ev_id e with Some v => v | None => PNone end
  end.

(** [e.get("time", "")] *)
Definition time_key (e : Event) : pystr :=
  match ev_time e with Some t => t | None => [] end.

Definition existing_tweet_ids (existing_events : list Event) : gset pyval :=
  list_to_set (identity_key <$> existing_events).

Definition unique_new_events (existing_events new_events : list Event) : list Event :=
  filter (λ e, identity_key e ∉ existing_tweet_ids existing_events) new_events.

Definition sort_by_time (l : list Event) : list Event :=
  sort_desc time_key str_ltb l.

Definition merge_events (existing_events new_events : list Event) (max_events : Z)
  : list Event :=
  let all_events := existing_events ++ unique_new_events existing_events new_events in
  slice_to max_events (sort_by_time all_events).

(** An event as the normaliser creates it, reduced to the fields the merge
    reads: [id] and [tweetId] hold the same string, [time] is set. *)
Definition tweet_event (tweet_id time : string) : Event :=
  {| ev_id := Some (PStr (u tweet_id)); ev_type := None; ev_country := None;
     ev_title := None; ev_desc := None; ev_location := None;
     ev_locationName := None; ev_time := Some (u time); ev_source := None;
     ev_tweetId := Some (PStr (u tweet_id)); ev_url := None; ev_isNew := None;
     ev_translations := None |}.

(** An event whose [tweetId] key is present with the value [null], as a
    hand-edited or imported record may have it. *)
Definition null_tweetId_event (id time : string) : Event :=
  {| ev_id := Some (PStr (u id)); ev_type := None; ev_country := None;
     ev_title := None; ev_desc := None; ev_location := None;
     ev_locationName := None; ev_time := Some (u time); ev_source := None;
     ev_tweetId := Some PNone; ev_url := None; ev_isNew := None;
     ev_translations := None |}.

(** ** Regular expressions ([re.search], [re.sub])

    The patterns of the source use literals, [.], one-character classes
    [[..]], the postfix operators [?], [*], [+] and the escape [\S].
    A pattern is compiled by [re] and matched by derivatives. *)

Module Re.

Inductive regex :=
  | Emp                     (* no string; produced by derivatives only *)
  | Eps                     (* the empty string *)
  | Chr (c : N)             (* a literal character *)
  | Dot                     (* [.]: any character but a line feed *)
  | OneOf (cs : list N)     (* [[abc]] *)
  | NonSpace                (* [\S] *)
  | Cat (r1 r2 : regex)
  | Alt (r1 r2 : regex)
  | Star (r : regex).

Definition Opt (r : regex) : regex := Alt r Eps.
Definition Plus (r : regex) : regex := Cat r (Star r).

Definition mkCat (r1 r2 : regex) : regex :=
  match r1, r2 with
  | Emp, _ => Emp
  | _, Emp => Emp
  | Eps, _ => r2
  | _, _ => Cat r1 r2
  end.

Definition mkAlt (r1 r2 : regex) : regex :=
  match r1, r2 with
  | Emp, _ => r2
  | _, Emp => r1
  | _, _ => Alt r1 r2
  end.

Fixpoint nullable (r : regex) : bool :=
  match r with
  | Emp | Chr _ | Dot | OneOf _ | NonSpace => false
  | Eps | Star _ => true
  | Cat r1 r2 => nullable r1 && nullable r2
  | Alt r1 r2 => nullable r1 || nullable r2
  end.

Definition of_bool (b : bool) : regex := if b then Eps else Emp.

(** What remains to be matched once [c] has been read. *)
Fixpoint deriv (c : N) (r : regex) : regex :=
  match r with
  | Emp | Eps => Emp
  | Chr d => of_bool (c =? d)%N
  | Dot => of_bool (negb (c =? 10)%N)
  | OneOf cs => of_bool (existsb (N.eqb c) cs)
  | NonSpace => of_bool (negb (isspace c))
  | Cat r1 r2 =>
    let d1 := mkCat (deriv c r1) r2 in
    if nullable r1 then mkAlt d1 (deriv c r2) else d1
  | Alt r1 r2 => mkAlt (deriv c r1) (deriv c r2)
  | Star r1 => mkCat (deriv c r1) (Star r1)
  end.

(** Some prefix of [s] matches [r]. *)
Fixpoint match_prefix (r : regex) (s : pystr) : bool :=
  nullable r ||
  match s with
  | [] => false
  | c :: s' => match_prefix (deriv c r) s'
  end.

(** [re.search(r, s)] finds a match: some substring of [s] matches [r]. *)
Fixpoint re_search (r : regex) (s : pystr) : bool :=
  match_prefix r s ||
  match s with
  | [] => false
  | _ :: s' => re_search r s'
  end.

(** The length of the longest prefix of [s] that matches [r]. *)
Fixpoint longest_match (r : regex) (s : pystr) : option nat :=
  let here := if nullable r then Some O else None in
  match s with
  | [] => here
  | c :: s' =>
    match longest_match (deriv c r) s' with
    | Some n => Some (S n)
    | None => here
    end
  end.

(** [re.sub(r, '', s)] for a pattern whose match at a position, when there
    is one, is the longest one (as for [https?://\S+], whose only greedy
    choices are forced): the leftmost matches are deleted, left to right.
    [skip] characters of the current match remain to be dropped. *)
Fixpoint re_sub_empty_go (r : regex) (skip : nat) (s : pystr) : pystr :=
  match s with
  | [] => []
  | c :: s' =>
    match skip with
    | S k => re_sub_empty_go r k s'
    | O =>
      match longest_match r s with
      | Some (S k) => re_sub_empty_go r k s'
      | _ => c :: re_sub_empty_go r O s'
      end
    end
  end.

Definition re_sub_empty (r : regex) (s : pystr) : pystr := re_sub_empty_go r O s.

(** *** Compiling a pattern *)

Inductive pstate :=
  | PNormal
  | PEscape
  | PClass (cs : list N).

(** Apply a postfix operator to the last item read. *)
Definition postfix (f : regex → regex) (items : list regex) : list regex :=
  match items with
  | [] => []
  | r :: rest => f r :: rest
  end.

(** [items] holds the items read so far, last first. *)
Fixpoint parse_go (st : pstate) (items : list regex) (s : pystr) : list regex :=
  match s with
  | [] => reverse items
  | c :: s' =>
    match st with
    | PEscape =>
      parse_go PNormal ((if (c =? 83)%N then NonSpace else Chr c) :: items) s'
    | PClass cs =>
      if (c =? 93)%N then parse_go PNormal (OneOf (reverse cs) :: items) s'
      else parse_go (PClass (c :: cs)) items s'
    | PNormal =>
      if (c =? 92)%N then parse_go PEscape items s'
      else if (c =? 91)%N then parse_go (PClass []) items s'
      else if (c =? 46)%N then parse_go PNormal (Dot :: items) s'
      else if (c =? 42)%N then parse_go PNormal (postfix Star items) s'
      else if (c =? 63)%N then parse_go PNormal (postfix Opt items) s'
      else if (c =? 43)%N then parse_go PNormal (postfix Plus items) s'
      else parse_go PNormal (Chr c :: items) s'
    end
  end.

Definition re (pattern : string) : regex :=
  foldr Cat Eps (parse_go PNormal [] (u pattern)).

(** *** What a pattern denotes *)

(** [matches r s]: the whole of [s] is a match of [r]. *)
Inductive matches : regex → pystr → Prop :=
  | matches_eps : matches Eps []
  | matches_chr c : matches (Chr c) [c]
  | matches_dot c : c ≠ 10%N → matches Dot [c]
  | matches_one_of c cs : c ∈ cs → matches (OneOf cs) [c]
  | matches_non_space c : isspace c = false → matches NonSpace [c]
  | matches_cat r1 r2 s1 s2 :
      matches r1 s1 → matches r2 s2 → matches (Cat r1 r2) (s1 ++ s2)
  | matches_alt_l r1 r2 s : matches r1 s → matches (Alt r1 r2) s
  | matches_alt_r r1 r2 s : matches r2 s → matches (Alt r1 r2) s
  | matches_star_nil r : matches (Star r) []
  | matches_star_cons r s1 s2 :
      matches r s1 → matches (Star r) s2 → matches (Star r) (s1 ++ s2).

(** [r] matches somewhere in [text]. *)
Definition occurs_in (r : regex) (text : pystr) : Prop :=
  ∃ before mid after, text = before ++ mid ++ after ∧ matches r mid.

End Re.
Import Re.

(** ** Classifier ([classify_event_type], twitter-to-events.py) *)

(** The rule table, in declaration order (the iteration order of the
    dictionary). *)
Definition EVENT_TYPE_PATTERNS : list (pystr * list regex) :=
  [ (u "strike",
     re <$> ["空袭"; "打击"; "爆炸"; "袭击"; "攻击"; "轰炸";
             "airstrike"; "strike"; "explosion"; "attack"; "bombing";
             "rocket"; "missile"; "drone"]);
    (u "blockade",
     re <$> ["封锁"; "拦截"; "扣押"; "登船";
             "blockade"; "intercept"; "seiz[uo]re"; "boarding";
             "vessel.*not.*allowed"; "shipping.*warning"; "maritime.*alert";
             "naval.*warning";
             "ship.*banned"; "vessel.*banned"; "strait.*closed";
             "waterway.*closed";
             "vhf.*warning"; "shipping.*lane.*closed"; "passage.*denied";
             "transit.*banned";
             "船只.*禁止"; "船舶.*警告"; "海峡.*关闭"; "航道.*封锁";
             "通行.*禁止"; "航海.*警告"]);
    (u "airspace",
     re <$> ["禁飞"; "封空"; "领空"; "防空";
             "no-fly"; "airspace"; "air.?defen[cs]e"]);
    (u "intel",
     re <$> ["情报"; "卫星"; "侦察"; "雷达"; "监听";
             "intelligence"; "satellite"; "reconnaissance"; "radar"]);
    (u "diplomatic",
     re <$> ["抗议"; "谈判"; "外交"; "声明"; "谴责"; "警告";
             "protest"; "negotiat"; "diplomat"; "statement"; "condemn";
             "warn"]) ].

Section Classifier.
Variable lower : pystr → pystr.

(** The inner loop: the patterns of one type, in order. *)
Fixpoint search_patterns (patterns : list regex) (text_lower : pystr) : bool :=
  match patterns with
  | [] => false
  | pattern :: rest =>
    if re_search pattern text_lower then true
    else search_patterns rest text_lower
  end.

(** The outer loop: the first type one of whose patterns matches. *)
Fixpoint search_types (table : list (pystr * list regex)) (text_lower : pystr)
  : option pystr :=
  match table with
  | [] => None
  | (event_type, patterns) :: rest =>
    if search_patterns patterns text_lower then Some event_type
    else search_types rest text_lower
  end.

Definition classify_event_type (text : pystr) : pystr :=
  let text_lower := lower text in
  match search_types EVENT_TYPE_PATTERNS text_lower with
  | Some event_type => event_type
  | None => u "intel"
  end.

End Classifier.

(** ** Title of a new event ([parse_tweet_to_event], lines 425-430) *)

Definition parse_tweet_to_event_title (text : pystr) : pystr :=
  let title := strip (take 50 text) in
  if (50 <? length text)%nat then
    let last_space := rfind 32%N title in
    if 30 <? last_space
    then take (Z.to_nat last_space) title ++ u "..."
    else title
  else title.

(** ** Source-language heuristics *)

(** ['؀' <= c <= 'ۿ'] *)
Definition in_arabic_range (c : N) : bool := ((1536 <=? c) && (c <=? 1791))%N.

(** [ord(c) > 127] *)
Definition non_ascii (c : N) : bool := (127 <? c)%N.

(** [original_lang] of [create_translated_content] (twitter-to-events.py,
    lines 290-297). *)
Definition original_lang (title : pystr) : pystr :=
  if existsb (λ c, non_ascii c && negb (in_arabic_range c)) title then u "zh"
  else if existsb in_arabic_range title then u "ar"
  else u "en".

(** [detect_language] (translate-existing-events.py). *)
Definition detect_language (text : pystr) : pystr :=
  match text with
  | [] => u "auto"
  | _ :: _ =>
    if existsb in_arabic_range text then u "ar"
    else if existsb non_ascii text then u "zh-CN"
    else u "en"
  end.

(** ** Translation completion (translate-existing-events.py) *)

Module Translate.

(** The translation backend is external.  [backend n text code] is its
    reply to the [n]-th request of the run, asking for [text] in the
    language [code]; [None] stands for any exception it raises. *)
Definition Backend := nat → pystr → string → option pystr.

(** Computations that count the requests sent so far. *)
Definition M (A : Type) : Type := nat → A * nat.

Definition ret {A} (a : A) : M A := λ n, (a, n).

Definition bind {A B} (c : M A) (k : A → M B) : M B :=
  λ n, let '(a, n') := c n in k a n'.

Notation "'let*' x ':=' c 'in' k" := (bind c (λ x, k))
  (at level 10, x pattern, c at level 100, k at level 200).

Definition lang_map (target_lang : string) : option string :=
  if String.eqb target_lang "zh" then Some "zh-CN"%string
  else if String.eqb target_lang "en" then Some "en"%string
  else if String.eqb target_lang "ar" then Some "ar"%string
  else None.

Section WithBackend.
Variable backend : Backend.

Definition translate_text (text : pystr) (target_lang : string)
  : M (option pystr) :=
  λ n,
    match lang_map target_lang with
    | None => (None, n)
    | Some code =>
      let text := if (500 <? length text)%nat then take 500 text ++ u "..."
                  else text in
      (backend n text code, S n)
    end.

(** One of the three blocks of the loop body: the slot [field] of
    [trans[target_lang]] is filled when it is missing or empty, the source
    text is not empty and the backend returns a non-empty text.  [to_send]
    is the text handed to the backend. *)
Definition complete_field (target_lang field : string)
    (source to_send : pystr)
    (st : gmap string trans_entry * list string)
  : M (gmap string trans_entry * list string) :=
  let '(trans, changes) := st in
  let entry := default ∅ (trans !! target_lang) in
  if negb (truthy (default [] (entry !! field))) && truthy source then
    let* r := translate_text to_send target_lang in
    match r with
    | Some t =>
      if truthy t
      then ret (<[target_lang := <[field := t]> entry]> trans,
                changes ++ [String.append target_lang (String.append "." field)])
      else ret st
    | None => ret st
    end
  else ret st.

(** The body of the loop over the target languages. *)
Definition complete_lang (source_title source_desc source_location : pystr)
    (target_lang : string) (st : gmap string trans_entry * list string)
  : M (gmap string trans_entry * list string) :=
  let '(trans, changes) := st in
  let trans :=
    match trans !! target_lang with
    | None => <[target_lang := ∅]> trans
    | Some _ => trans
    end in
  let* st := complete_field target_lang "title" source_title source_title
               (trans, changes) in
  let desc_short :=
    if (200 <? length source_desc)%nat then take 200 source_desc ++ u "..."
    else source_desc in
  let* st := complete_field target_lang "desc" source_desc desc_short st in
  complete_field target_lang "locationName" source_location source_location st.

Fixpoint for_each_lang (f : string → gmap string trans_entry * list string →
                             M (gmap string trans_entry * list string))
    (langs : list string) (st : gmap string trans_entry * list string)
  : M (gmap string trans_entry * list string) :=
  match langs with
  | [] => ret st
  | target_lang :: rest => let* st := f target_lang st in for_each_lang f rest st
  end.

(** [event['translations'] = trans] *)
Definition set_translations (event : Event) (trans : gmap string trans_entry)
  : Event :=
  {| ev_id := ev_id event; ev_type := ev_type event;
     ev_country := ev_country event; ev_title := ev_title event;
     ev_desc := ev_desc event; ev_location := ev_location event;
     ev_locationName := ev_locationName event; ev_time := ev_time event;
     ev_source := ev_source event; ev_tweetId := ev_tweetId event;
     ev_url := ev_url event; ev_isNew := ev_isNew event;
     ev_translations := Some trans |}.

(** Returns the updated event and the list of changes. *)
Definition complete_translations (event : Event) : M (Event * list string) :=
  let trans := default ∅ (ev_translations event) in
  let source_title := default [] (ev_title event) in
  let source_desc := default [] (ev_desc event) in
  let source_location := default [] (ev_locationName event) in
  let zh := trans !! "zh"%string in
  let zh_title := default [] (zh ≫= (.!! "title"%string)) in
  let '(source_title, source_desc, source_location) :=
    if truthy zh_title
    then (zh_title,
          default source_desc (zh ≫= (.!! "desc"%string)),
          default source_location (zh ≫= (.!! "locationName"%string)))
    else (source_title, source_desc, source_location) in
  let* st := for_each_lang
               (complete_lang source_title source_desc source_location)
               ["en"%string; "ar"%string] (trans, []) in
  ret (set_translations event st.1, st.2).

End WithBackend.

(** The text stored for [field] under [lang], if any. *)
Definition slot (trans : gmap string trans_entry) (lang field : string)
  : option pystr :=
  trans !! lang ≫= (.!! field).

Definition event_slot (event : Event) (lang field : string) : option pystr :=
  slot (default ∅ (ev_translations event)) lang field.

(** A slot that holds no text: the key is missing or the text is empty. *)
Definition vacant (o : option pystr) : Prop := o = None ∨ o = Some [].

(** The slots the completion may write: the three texts of the two target
    languages. *)
Definition target_slot (lang field : string) : Prop :=
  (lang = "en"%string ∨ lang = "ar"%string)
  ∧ (field = "title"%string ∨ field = "desc"%string
     ∨ field = "locationName"%string).

(** [t2] differs from [t1] only by texts put into vacant target slots. *)
Definition fills (t1 t2 : gmap string trans_entry) : Prop :=
  ∀ lang field,
    (∀ v, slot t1 lang field = Some v → v ≠ [] → slot t2 lang field = Some v)
    ∧ (∀ v', slot t2 lang field = Some v' →
             slot t1 lang field = Some v'
             ∨ (vacant (slot t1 lang field) ∧ v' ≠ []))
    ∧ (¬ target_slot lang field → slot t2 lang field = slot t1 lang field).

End Translate.

(** A stored event that has only its Chinese texts and an English title,
    and a backend that answers every request. *)
Definition sample_event : Event :=
  {| ev_id := Some (PStr (u "100")); ev_type := Some (u "strike");
     ev_country := Some (u "iran"); ev_title := Some (u "德黑兰空袭");
     ev_desc := Some (u "德黑兰遭到空袭"); ev_location := Some (3569, 5139);
     ev_locationName := Some (u "德黑兰");
     ev_time := Some (u "2024-01-01T00:00:00+00:00");
     ev_source := Some (u "@IDF"); ev_tweetId := Some (PStr (u "100"));
     ev_url := Some (u "https://twitter.com/IDF/status/100");
     ev_isNew := Some false;
     ev_translations := Some
       {[ "zh"%string := {[ "title"%string := u "德黑兰空袭";
                            "desc"%string := u "德黑兰遭到空袭";
                            "locationName"%string := u "德黑兰" ]};
          "en"%string := {[ "title"%string := u "Tehran air raid";
                            "desc"%string := [] ]} ]} |}.

Definition sample_backend : Translate.Backend :=
  λ n text code, Some (u "T" ++ u code ++ u ":" ++ text).

(** ** Raw items *)

(** The [author] (or [user]) object of a raw message.  [a_other_keys]
    tells whether the object has keys besides the two that are read, which
    decides its truth value. *)
Record Author := mkAuthor {
  a_username : option pystr;
  a_screen_name : option pystr;
  a_other_keys : bool
}.

(** A raw message, with the keys the scripts read. *)
Record Tweet := mkTweet {
  tw_id : option pyval;
  tw_text : option pystr;
  tw_full_text : option pystr;
  tw_author : option Author;
  tw_user : option Author;
  tw_createdAt : option pystr
}.

(** A news item, with the keys the ticker builder reads. *)
Record NewsItem := mkNewsItem {
  n_text : option pystr;
  n_title : option pystr
}.

(** [a or b] on strings, [a] possibly missing. *)
Definition or_str (a : option pystr) (b : pystr) : pystr :=
  match a with
  | Some (c :: s) => c :: s
  | _ => b
  end.

(** ** Ticker builder ([create_ticker_texts], twitter-to-events.py) *)

Definition ME_KEYWORDS : list pystr :=
  u <$> ["israel"; "iran"; "gaza"; "hamas"; "hezbollah";
         "以色列"; "伊朗"; "加沙"; "哈马斯"; "真主党";
         "middle east"; "中东"; "syria"; "叙利亚";
         "yemen"; "也门"; "red sea"; "红海";
         "hormuz"; "霍尔木兹"; "lebanon"; "黎巴嫩";
         "palestine"; "巴勒斯坦"; "west bank"; "约旦河西岸";
         "tel aviv"; "特拉维夫"; "jerusalem"; "耶路撒冷";
         "tehran"; "德黑兰"; "gulf"; "海湾"; "波斯湾"].

Record TickerTexts := mkTickerTexts {
  ticker_zh : list pystr;
  ticker_en : list pystr;
  ticker_ar : list pystr
}.

Module Ticker.

(** The state the closure [add_ticker_item] updates. *)
Record State := mkState {
  seen_keys : gset pystr;
  ticker_texts : TickerTexts
}.

Definition init : State :=
  {| seen_keys := ∅; ticker_texts := mkTickerTexts [] [] [] |}.

Section WithLower.
Variable lower : pystr → pystr.

(** [item.get("text") or item.get("title", "")] *)
Definition news_text (item : NewsItem) : pystr :=
  or_str (n_text item) (default [] (n_title item)).

Definition is_news_relevant (news_item : NewsItem) : bool :=
  let text := lower (news_text news_item) in
  existsb (λ keyword, contains (lower keyword) text) ME_KEYWORDS.

(** The deduplication key: the first 40 characters, lower-cased and
    stripped; then URLs removed and white space collapsed. *)
Definition dedup_key (text : pystr) : pystr :=
  let key := strip (lower (take 40 text)) in
  let key := re_sub_empty (re "https?://\S+") key in
  join (u " ") (split key).

Definition format_item (text : pystr) (author : option pystr) : pystr :=
  match author with
  | Some (c :: a) => u "⚡ @" ++ (c :: a) ++ u ": " ++ take 80 text
  | _ => u "⚡ " ++ take 100 text
  end.

(** Returns whether the item was added, and the updated state. *)
Definition add_ticker_item (text : pystr) (author : option pystr) (st : State)
  : bool * State :=
  let key := dedup_key text in
  if bool_decide (key ∈ seen_keys st) || (length key <? 10)%nat then (false, st)
  else
    let formatted := format_item text author in
    let t := ticker_texts st in
    (true,
     {| seen_keys := {[ key ]} ∪ seen_keys st;
        ticker_texts :=
          {| ticker_zh := ticker_zh t ++ [formatted];
             ticker_en := ticker_en t ++ [formatted];
             ticker_ar := ticker_ar t ++ [formatted] |} |}).

(** The body of the loop over the news items. *)
Definition news_step (st : State) (item : NewsItem) : State :=
  let text := news_text item in
  if truthy text && is_news_relevant item
  then (add_ticker_item text None st).2
  else st.

(** [tweet.get("text") or tweet.get("full_text", "")] *)
Definition tweet_text (tweet : Tweet) : pystr :=
  or_str (tw_text tweet) (default [] (tw_full_text tweet)).

(** The truth value of a dictionary: it has a key. *)
Definition author_truthy (a : Author) : bool :=
  bool_decide (is_Some (a_username a)) || bool_decide (is_Some (a_screen_name a))
  || a_other_keys a.

(** [tweet.get("author") or tweet.get("user") or {}] *)
Definition tweet_author (tweet : Tweet) : Author :=
  match tw_author tweet with
  | Some a => if author_truthy a then a else default (mkAuthor None None false) (tw_user tweet)
  | None => default (mkAuthor None None false) (tw_user tweet)
  end.

(** [author.get("username") or author.get("screen_name", "unknown")] *)
Definition tweet_username (tweet : Tweet) : pystr :=
  let author := tweet_author tweet in
  or_str (a_username author) (default (u "unknown") (a_screen_name author)).

(** The body of the loop over the messages. *)
Definition tweet_step (st : State) (tweet : Tweet) : State :=
  let text := tweet_text tweet in
  if truthy text
  then (add_ticker_item text (Some (tweet_username tweet)) st).2
  else st.

Definition create_ticker_texts (news_items : list NewsItem) (tweets : list Tweet)
  : TickerTexts :=
  let st := fold_left news_step (take 15 news_items) init in
  let st := fold_left tweet_step (take 10 tweets) st in
  let t := ticker_texts st in
  {| ticker_zh := take 15 (ticker_zh t);
     ticker_en := take 15 (ticker_en t);
     ticker_ar := take 15 (ticker_ar t) |}.

(** The texts handed to [add_ticker_item], in the order of the calls,
    each with the author passed along. *)
Definition news_candidates (news_items : list NewsItem)
  : list (pystr * option pystr) :=
  omap (λ item,
          let text := news_text item in
          if truthy text && is_news_relevant item
          then Some (text, None) else None)
       news_items.

Definition tweet_candidates (tweets : list Tweet) : list (pystr * option pystr) :=
  omap (λ tweet,
          let text := tweet_text tweet in
          if truthy text
          then Some (text, Some (tweet_username tweet)) else None)
       tweets.

Definition candidates (news_items : list NewsItem) (tweets : list Tweet)
  : list (pystr * option pystr) :=
  news_candidates (take 15 news_items) ++ tweet_candidates (take 10 tweets).

(** The return values of the successive calls of [add_ticker_item] on a
    list of candidates, and the final state. *)
Fixpoint run (cs : list (pystr * option pystr)) (st : State) : list bool * State :=
  match cs with
  | [] => ([], st)
  | (text, author) :: cs' =>
    let '(b, st') := add_ticker_item text author st in
    let '(bs, st'') := run cs' st' in
    (b :: bs, st'')
  end.

(** The formatted texts of the candidates whose call returned [True]. *)
Fixpoint added (cs : list (pystr * option pystr)) (bs : list bool) : list pystr :=
  match cs, bs with
  | (text, author) :: cs', b :: bs' =>
    if b then format_item text author :: added cs' bs' else added cs' bs'
  | _, _ => []
  end.

(** The key as the specification words it: lower-cased, URLs stripped,
    white space collapsed, first 40 characters. *)
Definition spec_dedup_key (text : pystr) : pystr :=
  take 40 (join (u " ") (split (re_sub_empty (re "https?://\S+") (lower text)))).

End WithLower.

End Ticker.

(** A raw message with a text and an author name. *)
Definition text_tweet (username text : string) : Tweet :=
  {| tw_id := None; tw_text := Some (u text); tw_full_text := None;
     tw_author := Some (mkAuthor (Some (u username)) None false);
     tw_user := None; tw_createdAt := None |}.

(** ** Entry points and the store file *)

(** What a run does to the store file: it leaves it as it was, it rewrites
    it with a document whose [events] are the given list, or it fails while
    writing. *)
Inductive StoreEffect :=
  | Untouched
  | Overwritten (events : list Event)
  | WriteFailed.

(** The exit status of the process and the effect on the store. *)
Record Outcome := mkOutcome {
  exit_code : Z;
  store_effect : StoreEffect
}.

(** [str(v)] for an identifier. *)
Definition py_str (v : pyval) : pystr :=
  match v with
  | PNone => u "None"
  | PInt n => u (pretty n)
  | PStr s => s
  end.

(** The truth value of an identifier. *)
Definition pyval_truthy (v : pyval) : bool :=
  match v with
  | PNone => false
  | PInt n => negb (n =? 0)
  | PStr s => truthy s
  end.

(** *** safe-update.py *)

Module SafeUpdate.

Definition KEYWORDS : list pystr :=
  u <$> ["israel iran"; "iran attack"; "gulf war"; "tel aviv missile";
         "tehran strike"].

Section WithEnvironment.
(** [search_tweets keyword] is the reply of the search tool (the empty list
    on any failure); [clock n] is the time read while the [n]-th new event
    is built. *)
Variable search_tweets : pystr → list Tweet.
Variable clock : nat → pystr.

(** [tweet.get('author', {}).get('username', 'unknown')] *)
Definition author_username (tweet : Tweet) : pystr :=
  match tw_author tweet with
  | Some a => default (u "unknown") (a_username a)
  | None => u "unknown"
  end.

(** The event built from a raw message (lines 88-108). *)
Definition make_event (tweet : Tweet) (tweet_id : pyval) (now : pystr) : Event :=
  let text := default [] (tw_text tweet) in
  {| ev_id := Some tweet_id;
     ev_type := Some (u "intel");
     ev_country := Some (u "israel");
     ev_title := Some (take 100 text);
     ev_desc := Some text;
     ev_location := Some (3200, 3500);
     ev_locationName := Some (u "以色列");
     ev_time := Some (default now (tw_createdAt tweet));
     ev_source := Some (u "@" ++ author_username tweet);
     ev_tweetId := Some tweet_id;
     ev_url := Some (u "https://twitter.com/" ++ author_username tweet
                     ++ u "/status/" ++ py_str tweet_id);
     ev_isNew := Some true;
     ev_translations := Some
       {[ "zh"%string := {[ "title"%string := take 100 text;
                            "desc"%string := text;
                            "locationName"%string := u "以色列" ]} ]} |}.

(** The body of the loop over the messages of one search; the state holds
    [new_events] and [existing_tweet_ids]. *)
Definition tweet_step (st : list Event * gset pyval) (tweet : Tweet)
  : list Event * gset pyval :=
  let '(new_events, existing_tweet_ids) := st in
  let tweet_id := default PNone (tw_id tweet) in
  if negb (pyval_truthy tweet_id) || bool_decide (tweet_id ∈ existing_tweet_ids)
  then st
  else
    let event := make_event tweet tweet_id (clock (length new_events)) in
    (new_events ++ [event], {[ tweet_id ]} ∪ existing_tweet_ids).

Definition keyword_step (st : list Event * gset pyval) (keyword : pystr)
  : list Event * gset pyval :=
  fold_left tweet_step (search_tweets keyword) st.

(** [{event.get("tweetId") for event in existing_events}] *)
Definition stored_tweet_ids (existing_events : list Event) : gset pyval :=
  list_to_set ((λ event, default PNone (ev_tweetId event)) <$> existing_events).

Definition collect_new_events (existing_events : list Event) : list Event :=
  (fold_left keyword_step KEYWORDS ([], stored_tweet_ids existing_events)).1.

(** The end of [main], from "Validate before saving": the guard, then the
    write, which succeeds or not. *)
Definition validate_and_save (existing_events all_events : list Event)
    (write_ok : bool) : Outcome :=
  if (length all_events <? length existing_events)%nat
  then mkOutcome 1 Untouched
  else if write_ok then mkOutcome 0 (Overwritten all_events)
  else mkOutcome 1 WriteFailed.

(** [store] is the list under [events] of the store file, [None] when the
    file is missing (the backup raises) or cannot be loaded. *)
Definition main (store : option (list Event)) (write_ok : bool) : Outcome :=
  match store with
  | None => mkOutcome 1 Untouched
  | Some existing_events =>
    let new_events := collect_new_events existing_events in
    let all_events := new_events ++ existing_events in
    validate_and_save existing_events all_events write_ok
  end.

End WithEnvironment.
End SafeUpdate.

(** *** twitter-to-events.py *)

Module TwitterToEvents.

Section WithEnvironment.
(** The normaliser [parse_tweet_to_event] reads the clock, the string hash
    of the interpreter and the translation backend; its result is taken as
    given, [None] standing for the exception that [main] catches. *)
Variable parse_tweet_to_event : Tweet → option Event.

(** The loop "Convert tweets to events". *)
Definition convert (all_tweets : list Tweet) : list Event :=
  omap parse_tweet_to_event all_tweets.

(** [store] is the list under [events] of the store file, [None] when the
    file is missing or is not JSON; [all_tweets] is what the searches
    returned. *)
Definition main (store : option (list Event)) (all_tweets : list Tweet)
    (write_ok : bool) : Outcome :=
  let existing_events := default [] store in
  match all_tweets with
  | [] => mkOutcome 0 Untouched
  | _ :: _ =>
    let new_events := convert all_tweets in
    let merged_events := merge_events existing_events new_events 100 in
    if write_ok then mkOutcome 0 (Overwritten merged_events)
    else mkOutcome 1 WriteFailed
  end.

End WithEnvironment.

(** A normaliser that keeps the identifier and the time of the message. *)
Definition keep_id_and_time (tweet : Tweet) : option Event :=
  Some {| ev_id := tw_id tweet; ev_type := None; ev_country := None;
          ev_title := None; ev_desc := tw_text tweet; ev_location := None;
          ev_locationName := None; ev_time := tw_createdAt tweet;
          ev_source := None; ev_tweetId := tw_id tweet; ev_url := None;
          ev_isNew := Some false; ev_translations := None |}.

End TwitterToEvents.

(** A store of [n] events with the identifiers [0 .. n-1], one per day
    of a numbered calendar. *)
Definition numbered_event (i : nat) : Event :=
  {| ev_id := Some (PStr (u (pretty i))); ev_type := None; ev_country := None;
     ev_title := None; ev_desc := None; ev_location := None;
     ev_locationName := None; ev_time := Some (u "2024-01-01T00:00:00Z");
     ev_source := None; ev_tweetId := Some (PStr (u (pretty i)));
     ev_url := None; ev_isNew := None; ev_translations := None |}.

Definition numbered_store (n : nat) : list Event := numbered_event <$> seq 0 n.

Definition id_tweet (tweet_id created_at text : string) : Tweet :=
  {| tw_id := Some (PStr (u tweet_id)); tw_text := Some (u text);
     tw_full_text := None;
     tw_author := Some (mkAuthor (Some (u "IDF")) None false);
     tw_user := None; tw_createdAt := Some (u created_at) |}.

(** A search tool that knows two messages for the first keyword. *)
Definition sample_search (keyword : pystr) : list Tweet :=
  if bool_decide (keyword = u "israel iran")
  then [id_tweet "100" "2024-01-01T00:00:00Z" "Sirens in Tel Aviv";
        id_tweet "200" "2024-01-02T00:00:00Z" "Strike near Tehran"]
  else [].

(** * Further parts of the scripts *)

(** ** Geolocator and country tag (twitter-to-events.py) *)

(** [p] occurs in [s] as a substring. *)
Definition substring (p s : pystr) : Prop := ∃ before after, s = before ++ p ++ after.

(** A dictionary literal, as the list of its items in the order of the
    source; [dict_get k d] is [d.get(k)]. *)
Fixpoint dict_get {V} (k : pystr) (d : list (pystr * V)) : option V :=
  match d with
  | [] => None
  | (k', v) :: rest => if bool_decide (k' = k) then Some v else dict_get k rest
  end.

(** Coordinates are written in hundredths of a degree. *)
Definition DEFAULT_LOCATIONS : list (pystr * (Z * Z)) :=
  [
    (u "加沙", (3150, 3447));
    (u "加沙北部", (3150, 3447));
    (u "加沙南部", (3130, 3435));
    (u "加沙城", (3150, 3447));
    (u "特拉维夫", (3208, 3478));
    (u "耶路撒冷", (3177, 3522));
    (u "海法", (3282, 3498));
    (u "德黑兰", (3569, 5139));
    (u "霍尔木兹海峡", (2656, 5627));
    (u "红海", (2000, 3800));
    (u "黎巴嫩", (3327, 3520));
    (u "贝鲁特", (3389, 3549));
    (u "大马士革", (3351, 3629));
    (u "波斯湾", (2700, 5200));
    (u "约旦河西岸", (3200, 3520));
    (u "拉马拉", (3195, 3523));
    (u "汗尤尼斯", (3134, 3431));
    (u "拉法", (3129, 3425));
    (u "纳戈尔诺", (3981, 4676));
    (u "戈兰高地", (3318, 3573));
    (u "阿克萨", (3178, 3523));
    (u "伊拉克", (3322, 4368));
    (u "巴格达", (3331, 4436));
    (u "叙利亚", (3480, 3899));
    (u "也门", (1555, 4788));
    (u "萨那", (1537, 4761));
    (u "荷台达", (1480, 4295));
    (u "沙特", (2389, 4508));
    (u "利雅得", (2471, 4668));
    (u "阿联酋", (2342, 5385));
    (u "阿布扎比", (2445, 5438));
    (u "迪拜", (2520, 5527));
    (u "卡塔尔", (2535, 5118));
    (u "多哈", (2529, 5153));
    (u "科威特", (2931, 4748));
    (u "巴林", (2606, 5056));
    (u "阿曼", (2147, 5598));
    (u "马斯喀特", (2359, 5838));
    (u "土耳其", (3896, 3524));
    (u "安卡拉", (3993, 3285));
    (u "伊斯坦布尔", (4101, 2897));
    (u "约旦", (3059, 3624));
    (u "安曼", (3195, 3591));
    (u "埃及", (2682, 3080));
    (u "开罗", (3004, 3124));
    (u "塞浦路斯", (3513, 3343));
    (u "尼科西亚", (3519, 3338)) ].

Definition COUNTRY_COORDINATES : list (pystr * (Z * Z)) :=
  [
    (u "israel", (3200, 3500));
    (u "iran", (3200, 5300));
    (u "usa", (2850, 4500));
    (u "saudi", (2400, 4500));
    (u "uae", (2400, 5400));
    (u "yemen", (1550, 4800));
    (u "syria", (3500, 3800));
    (u "lebanon", (3400, 3600));
    (u "turkey", (3900, 3500));
    (u "iraq", (3300, 4400));
    (u "jordan", (3100, 3600));
    (u "egypt", (2700, 3000)) ].

Definition DEFAULT_COUNTRY_MAPPING : list (pystr * pystr) :=
  [
    (u "以色列", u "israel");
    (u "israel", u "israel");
    (u "iran", u "iran");
    (u "伊朗", u "iran");
    (u "usa", u "usa");
    (u "美国", u "usa");
    (u "yemen", u "iran");
    (u "也门", u "iran");
    (u "gaza", u "israel");
    (u "加沙", u "israel");
    (u "lebanon", u "israel");
    (u "黎巴嫩", u "israel");
    (u "syria", u "iran");
    (u "叙利亚", u "iran");
    (u "saudi", u "usa");
    (u "沙特", u "usa");
    (u "uae", u "usa");
    (u "阿联酋", u "usa") ].

(** The optional override file, with the keys the script reads. *)
Record Config := mkConfig {
  cfg_keywords : option (list pystr);
  cfg_accounts : option (list pystr);
  cfg_countryMapping : option (list (pystr * pystr))
}.

Definition extract_location_from_text (text : pystr) : option pystr :=
  let locations :=
    (λ loc_name, (loc_name, length loc_name))
      <$> filter (λ loc_name, contains loc_name text = true)
                 (DEFAULT_LOCATIONS.*1) in
  match sort_desc snd Nat.ltb locations with
  | (loc_name, _) :: _ => Some loc_name
  | [] => None
  end.

(** The loop of [detect_country] over the items of the mapping. *)
Fixpoint first_country (lower : pystr → pystr) (country_mapping : list (pystr * pystr))
    (text_lower : pystr) : pystr :=
  match country_mapping with
  | [] => u "iran"
  | (keyword, country) :: rest =>
    if contains (lower keyword) text_lower then country
    else first_country lower rest text_lower
  end.

Definition detect_country (lower : pystr → pystr) (text : pystr) (config : Config)
  : pystr :=
  let country_mapping := default DEFAULT_COUNTRY_MAPPING (cfg_countryMapping config) in
  let text_lower := lower text in
  first_country lower country_mapping text_lower.

Definition get_coordinates (location_name : option pystr) (country : pystr)
  : Z * Z :=
  match (if truthy (default [] location_name)
         then dict_get (default [] location_name) DEFAULT_LOCATIONS
         else None) with
  | Some coordinates => coordinates
  | None =>
    match dict_get country COUNTRY_COORDINATES with
    | Some coordinates => coordinates
    | None => (2800, 4300)
    end
  end.

(** The configuration used when no override file exists. *)
Definition no_override : Config := mkConfig None None None.

(** The checks on the tables that the properties below rest on: a place
    name is not empty and has coordinates other than the last-resort pair;
    a country of the built-in mapping has coordinates other than it. *)
Definition location_entry_ok (name : pystr) : bool :=
  truthy name &&
  match dict_get name DEFAULT_LOCATIONS with
  | Some c => negb (bool_decide (c = (2800, 4300)))
  | None => false
  end.

Definition country_entry_ok (country : pystr) : bool :=
  (bool_decide (country = u "israel") || bool_decide (country = u "iran")
   || bool_decide (country = u "usa")) &&
  match dict_get country COUNTRY_COORDINATES with
  | Some c => negb (bool_decide (c = (2800, 4300)))
  | None => false
  end.

(** ** News deduplication ([deduplicate_news], twitter-to-events.py) *)

Module News.
Section WithLower.
Variable lower : pystr → pystr.

(** [text[:50].lower()], where [text] is the text or else the title. *)
Definition news_key (item : NewsItem) : pystr :=
  lower (take 50 (Ticker.news_text item)).

(** The first loop: the keys of the existing news seed [seen]. *)
Definition seed (existing_news : list NewsItem) : gset pystr :=
  fold_left (λ seen item, {[ news_key item ]} ∪ seen) existing_news ∅.

(** The second loop: [unique_items], for the current [seen]. *)
Fixpoint scan (seen : gset pystr) (news_items : list NewsItem) : list NewsItem :=
  match news_items with
  | [] => []
  | item :: rest =>
    let key := news_key item in
    if bool_decide (key ∈ seen) then scan seen rest
    else item :: scan ({[ key ]} ∪ seen) rest
  end.

(** [existing_news] is the empty list when the argument is omitted. *)
Definition deduplicate_news (news_items existing_news : list NewsItem)
  : list NewsItem :=
  scan (seed existing_news) news_items.

End WithLower.
End News.

Definition headline (text : string) : NewsItem :=
  {| n_text := Some (u text); n_title := None |}.

(** ** Templates ([create_templates], twitter-to-events.py) *)

Definition LANGUAGES : list string := ["zh"; "en"; "ar"]%string.

Record Template := mkTemplate {
  tp_type : option pystr;
  tp_country : option pystr;
  tp_location : option (Z * Z);
  tp_source : pystr;
  tp_url : pystr;
  tp_tweetId : pyval;
  tp_title : pystr;
  tp_desc : pystr;
  tp_locationName : pystr;
  tp_translations : gmap string trans_entry
}.

Record Templates := mkTemplates {
  tpl_zh : list Template;
  tpl_en : list Template;
  tpl_ar : list Template
}.

Module Tpl.

(** [lang_trans.get(field, event.get(field, ""))] *)
Definition lang_text (event : Event) (lang field : string)
    (canonical : option pystr) : pystr :=
  let translations := default ∅ (ev_translations event) in
  let lang_trans := default ∅ (translations !! lang) in
  default (default [] canonical) (lang_trans !! field).

(** The entry written to [base_template["translations"][lang]]. *)
Definition lang_entry (event : Event) (lang : string) : trans_entry :=
  {[ "title"%string := lang_text event lang "title" (ev_title event);
     "desc"%string := lang_text event lang "desc" (ev_desc event);
     "locationName"%string :=
       lang_text event lang "locationName" (ev_locationName event) ]}.

(** [base_template["translations"]] when the loop over the languages has
    ended.  The three templates of an event all hold this one dictionary
    object, so each of them shows all the entries. *)
Definition shared_translations (event : Event) : gmap string trans_entry :=
  fold_left (λ m lang, <[lang := lang_entry event lang]> m) LANGUAGES ∅.

(** The template appended to [templates[lang]]. *)
Definition make_template (event : Event) (lang : string) : Template :=
  {| tp_type := ev_type event;
     tp_country := ev_country event;
     tp_location := ev_location event;
     tp_source := default (u "Unknown") (ev_source event);
     tp_url := default [] (ev_url event);
     tp_tweetId := default (PStr []) (ev_tweetId event);
     tp_title := lang_text event lang "title" (ev_title event);
     tp_desc := lang_text event lang "desc" (ev_desc event);
     tp_locationName := lang_text event lang "locationName" (ev_locationName event);
     tp_translations := shared_translations event |}.

(** [(event.get("type"), event.get("country"))] *)
Definition combination (event : Event) : option pystr * option pystr :=
  (ev_type event, ev_country event).

Definition append_event (templates : Templates) (event : Event) : Templates :=
  {| tpl_zh := tpl_zh templates ++ [make_template event "zh"];
     tpl_en := tpl_en templates ++ [make_template event "en"];
     tpl_ar := tpl_ar templates ++ [make_template event "ar"] |}.

(** The loop over the events, with [seen_combinations] and [templates]. *)
Fixpoint loop (seen_combinations : gset (option pystr * option pystr))
    (templates : Templates) (events : list Event) : Templates :=
  match events with
  | [] => templates
  | event :: rest =>
    let key := combination event in
    if bool_decide (key ∈ seen_combinations) then loop seen_combinations templates rest
    else
      let templates := append_event templates event in
      if (10 <=? length (tpl_zh templates))%nat then templates
      else loop ({[ key ]} ∪ seen_combinations) templates rest
  end.

Definition create_templates (events : list Event) : Templates :=
  loop ∅ (mkTemplates [] [] []) events.

End Tpl.

(** An event with a type, a country and a Chinese title only. *)
Definition typed_event (type country title : string) : Event :=
  {| ev_id := None; ev_type := Some (u type); ev_country := Some (u country);
     ev_title := Some (u title); ev_desc := None; ev_location := None;
     ev_locationName := None; ev_time := None; ev_source := None;
     ev_tweetId := None; ev_url := None; ev_isNew := None;
     ev_translations := None |}.

(** [event.get("tweetId")] *)
Definition tweetId_of (event : Event) : pyval := default PNone (ev_tweetId event).

(** ** Translations of new content ([create_translated_content],
    twitter-to-events.py) *)

Module NewContent.
Import Translate.

Section WithBackend.
(** Whether the translation library could be imported, and the backend. *)
Variable TRANSLATION_AVAILABLE : bool.
Variable backend : Backend.

(** [translate_text] of twitter-to-events.py: as the one of the completion
    script, behind the availability test. *)
Definition translate_text (text : pystr) (target_lang : string)
  : M (option pystr) :=
  if TRANSLATION_AVAILABLE then Translate.translate_text backend text target_lang
  else ret None.

(** [translated[lang][field] = text] *)
Definition set_text (translated : gmap string trans_entry)
    (lang field : string) (text : pystr) : gmap string trans_entry :=
  <[lang := <[field := text]> (default ∅ (translated !! lang))]> translated.

(** [if reply: translated[lang][field] = reply] *)
Definition store_reply (translated : gmap string trans_entry)
    (lang field : string) (reply : option pystr) : gmap string trans_entry :=
  match reply with
  | Some t => if truthy t then set_text translated lang field t else translated
  | None => translated
  end.

(** The body of the loop for a language that is not the original one. *)
Definition translate_into (title desc location_name : pystr)
    (target_lang : string) (translated : gmap string trans_entry)
  : M (gmap string trans_entry) :=
  let* title_trans := translate_text title target_lang in
  let translated := store_reply translated target_lang "title" title_trans in
  let desc_short :=
    if (200 <? length desc)%nat then take 200 desc ++ u "..." else desc in
  let* desc_trans := translate_text desc_short target_lang in
  let translated := store_reply translated target_lang "desc" desc_trans in
  if truthy location_name then
    let* loc_trans := translate_text location_name target_lang in
    ret (store_reply translated target_lang "locationName" loc_trans)
  else ret translated.

Fixpoint over_languages (title desc location_name original_lang : pystr)
    (langs : list string) (translated : gmap string trans_entry)
  : M (gmap string trans_entry) :=
  match langs with
  | [] => ret translated
  | target_lang :: rest =>
    if bool_decide (u target_lang = original_lang)
    then over_languages title desc location_name original_lang rest translated
    else
      let* translated :=
        translate_into title desc location_name target_lang translated in
      over_languages title desc location_name original_lang rest translated
  end.

(** The dictionary built first: the original texts under every language. *)
Definition untranslated (title desc location_name : pystr)
  : gmap string trans_entry :=
  let entry : trans_entry :=
    {[ "title"%string := title; "desc"%string := desc;
       "locationName"%string := location_name ]} in
  {[ "zh"%string := entry; "en"%string := entry; "ar"%string := entry ]}.

Definition create_translated_content (title desc location_name : pystr)
  : M (gmap string trans_entry) :=
  let translated := untranslated title desc location_name in
  if negb TRANSLATION_AVAILABLE then ret translated
  else over_languages title desc location_name (original_lang title)
                      LANGUAGES translated.

End WithBackend.
End NewContent.

(** A backend that fails on every request. *)
Definition failing_backend : Translate.Backend := λ _ _ _, None.

(** ** Entry point of translate-existing-events.py *)

Module TranslateMain.
Import Translate.

(** ['lang' in trans and trans['lang'].get('title')], as a truth value. *)
Definition has_title (event : Event) (lang : string) : bool :=
  truthy (default [] (event_slot event lang "title")).

(** The counters [missing_both], [missing_en], [missing_ar] of the
    analysis loop. *)
Definition count_step (c : nat * nat * nat) (event : Event) : nat * nat * nat :=
  let '(missing_both, missing_en, missing_ar) := c in
  let has_en := has_title event "en" in
  let has_ar := has_title event "ar" in
  if negb has_en && negb has_ar then (S missing_both, missing_en, missing_ar)
  else if negb has_en then (missing_both, S missing_en, missing_ar)
  else if negb has_ar then (missing_both, missing_en, S missing_ar)
  else c.

Definition analyse (events : list Event) : nat * nat * nat :=
  fold_left count_step events (O, O, O).

Section WithEnvironment.
Variable lower : pystr → pystr.
Variable backend : Backend.

(** The processing loop: an event that has both titles is skipped, any
    other is completed. *)
Fixpoint process (events : list Event) : M (list Event) :=
  match events with
  | [] => ret []
  | event :: rest =>
    if has_title event "en" && has_title event "ar"
    then let* rest' := process rest in ret (event :: rest')
    else
      let* r := complete_translations backend event in
      let* rest' := process rest in
      ret (r.1 :: rest')
  end.

(** [store] is the list under [events] of the store file, [None] when the
    file is missing or cannot be loaded; [backup_ok] and [write_ok] tell
    whether the backup and the store can be written; [response] is the line
    typed at the prompt. *)
Definition main (store : option (list Event)) (backup_ok : bool)
    (response : pystr) (write_ok : bool) : Outcome :=
  match store with
  | None => mkOutcome 1 Untouched
  | Some events =>
    if negb backup_ok then mkOutcome 1 Untouched
    else
      let '(missing_both, missing_en, missing_ar) := analyse events in
      if (missing_both + missing_en + missing_ar =? 0)%nat
      then mkOutcome 0 Untouched
      else
        let response := lower (strip response) in
        if negb (bool_decide (response = u "y")) then mkOutcome 0 Untouched
        else
          let events := (process events O).1 in
          if write_ok then mkOutcome 0 (Overwritten events)
          else mkOutcome 1 WriteFailed
  end.

End WithEnvironment.

(** How a written event relates to the stored one. *)
Definition processed (event event' : Event) : Prop :=
  (has_title event "en" = true ∧ has_title event "ar" = true ∧ event' = event)
  ∨ ((has_title event "en" = false ∨ has_title event "ar" = false)
     ∧ ∃ trans, event' = set_translations event trans
                ∧ fills (default ∅ (ev_translations event)) trans).

End TranslateMain.

(** An event with both titles but no English description. *)
Definition titled_event : Event :=
  {| ev_id := Some (PStr (u "7")); ev_type := None; ev_country := None;
     ev_title := Some (u "红海拦截"); ev_desc := Some (u "红海拦截行动");
     ev_location := None; ev_locationName := None; ev_time := None;
     ev_source := None; ev_tweetId := Some (PStr (u "7")); ev_url := None;
     ev_isNew := None;
     ev_translations := Some
       {[ "zh"%string := {[ "title"%string := u "红海拦截" ]};
          "en"%string := {[ "title"%string := u "Red Sea interception" ]};
          "ar"%string := {[ "title"%string := u "اعتراض" ]} ]} |}.

(** ** Event normaliser ([parse_tweet_to_event], twitter-to-events.py) *)

Module Normalize.
Import Translate.

(** A raw message with the alternate keys of the older format. *)
Record RawTweet := mkRawTweet {
  rt_tweet : Tweet;
  rt_id_str : option pyval;
  rt_created_at : option pystr
}.

(** [a or b] on identifiers, [a] possibly missing. *)
Definition or_val (a : option pyval) (b : pyval) : pyval :=
  match a with
  | Some v => if pyval_truthy v then v else b
  | None => b
  end.

Section WithEnvironment.
(** [str.lower] and [str.upper]; [hash_text text] is [str(hash(text))];
    [iso_time created_at] is the outcome [dt.isoformat()] of the block that
    parses the time stamp or falls back on the clock; the availability of
    the translation library and the backend. *)
Variable lower upper : pystr → pystr.
Variable hash_text : pystr → pystr.
Variable iso_time : pystr → pystr.
Variable TRANSLATION_AVAILABLE : bool.
Variable backend : Backend.

Definition tweet_id (raw : RawTweet) : pyval :=
  let tweet := rt_tweet raw in
  or_val (tw_id tweet)
    (or_val (rt_id_str raw) (PStr (hash_text (default [] (tw_text tweet))))).

(** [author.get("username") or author.get("screen_name") or "unknown"] *)
Definition username (raw : RawTweet) : pystr :=
  let author := Ticker.tweet_author (rt_tweet raw) in
  or_str (a_username author) (or_str (a_screen_name author) (u "unknown")).

(** [tweet.get("createdAt") or tweet.get("created_at", "")] *)
Definition created_at (raw : RawTweet) : pystr :=
  or_str (tw_createdAt (rt_tweet raw)) (default [] (rt_created_at raw)).

(** [location_name or (country.upper() if country else "MIDDLE EAST")] *)
Definition display_location (location_name : option pystr) (country : pystr)
  : pystr :=
  or_str location_name (if truthy country then upper country else u "MIDDLE EAST").

(** [translated[lang][field]] *)
Definition text_of (translated : gmap string trans_entry) (lang field : string)
  : pystr :=
  default [] (slot translated lang field).

Definition copy_entry (translated : gmap string trans_entry) (lang : string)
  : trans_entry :=
  {[ "title"%string := text_of translated lang "title";
     "desc"%string := text_of translated lang "desc";
     "locationName"%string := text_of translated lang "locationName" ]}.

Definition parse_tweet_to_event (raw : RawTweet) (config : Config) : M Event :=
  let tweet_id := tweet_id raw in
  let text := Ticker.tweet_text (rt_tweet raw) in
  let username := username raw in
  let time := iso_time (created_at raw) in
  let event_type := classify_event_type lower text in
  let country := detect_country lower text config in
  let location_name := extract_location_from_text text in
  let coordinates := get_coordinates location_name country in
  let title := parse_tweet_to_event_title text in
  let url := u "https://twitter.com/" ++ username ++ u "/status/"
             ++ py_str tweet_id in
  let* translated :=
    NewContent.create_translated_content TRANSLATION_AVAILABLE backend
      title text (display_location location_name country) in
  ret {| ev_id := Some tweet_id;
         ev_type := Some event_type;
         ev_country := Some country;
         ev_title := Some (text_of translated "zh" "title");
         ev_desc := Some (text_of translated "zh" "desc");
         ev_location := Some coordinates;
         ev_locationName := Some (text_of translated "zh" "locationName");
         ev_time := Some time;
         ev_source := Some (u "@" ++ username);
         ev_tweetId := Some tweet_id;
         ev_url := Some url;
         ev_isNew := Some false;
         ev_translations := Some
           {[ "zh"%string := copy_entry translated "zh";
              "en"%string := copy_entry translated "en";
              "ar"%string := copy_entry translated "ar" ]} |}.

End WithEnvironment.
End Normalize.

(** A raw message of the current format. *)
Definition raw_tweet (tweet_id created_at text : string) : Normalize.RawTweet :=
  Normalize.mkRawTweet (id_tweet tweet_id created_at text) None None.

(** * Properties *)

Example u_ascii : u "Abc" = [65; 98; 99]%N.
Proof. reflexivity. Qed.

Example u_cjk : u "空袭" = [31354; 34989]%N.
Proof. reflexivity. Qed.

Example strip_ex : strip (u "  a b  ") = u "a b".
Proof. reflexivity. Qed.

Example split_ex : split (u " ab   c d ") = [u "ab"; u "c"; u "d"].
Proof. reflexivity. Qed.

Example rfind_ex : rfind 32%N (u "ab cd ef") = 5.
Proof. reflexivity. Qed.

(** ** Order on time stamps *)

Section StrOrder.

Lemma str_ltb_irrefl (s : pystr) : str_ltb s s = false.
Proof.
  induction s as [|a s IH]; simpl; [done|].
  by rewrite N.ltb_irrefl, N.eqb_refl.
Qed.

Lemma str_ltb_asym (s t : pystr) : str_ltb s t = true → str_ltb t s = false.
Proof.
  revert t; induction s as [|a s IH]; intros [|b t]; simpl; try done.
  destruct (N.ltb_spec a b) as [Hab|Hab].
  - intros _. destruct (N.ltb_spec b a); [lia|].
    destruct (N.eqb_spec b a); [lia|done].
  - destruct (N.eqb_spec a b) as [->|Hne]; [|done].
    rewrite N.ltb_irrefl, N.eqb_refl. apply IH.
Qed.

(** [>=] is transitive: the order is total. *)
Lemma str_geb_trans (s t r : pystr) :
  str_ltb s t = false → str_ltb t r = false → str_ltb s r = false.
Proof.
  revert t r; induction s as [|a s IH]; intros [|b t] [|c r]; simpl; try done.
  destruct (N.ltb_spec a b) as [Hab|Hab]; [done|].
  destruct (N.ltb_spec b c) as [Hbc|Hbc].
  { destruct (N.eqb_spec a b); done. }
  destruct (N.eqb_spec a b) as [->|Hne1].
  - destruct (N.eqb_spec b c) as [->|Hne2].
    + rewrite N.ltb_irrefl. apply IH.
    + intros _ _. destruct (N.ltb_spec b c); [lia|done].
  - intros _ _. destruct (N.ltb_spec a c); [lia|].
    destruct (N.eqb_spec a c); [lia|done].
Qed.

End StrOrder.

(** ** The stable sort *)

Section StableSortFacts.
Context {A K : Type} (key : A → K) (ltb : K → K → bool).

Local Abbreviation ins := (insert_desc key ltb).
Local Abbreviation srt := (sort_desc key ltb).
Local Abbreviation geK := (ge_key key ltb).

Lemma insert_desc_perm x l : ins x l ≡ₚ x :: l.
Proof.
  induction l as [|y l IH]; simpl; [done|].
  destruct (ltb (key x) (key y)); [|done].
  rewrite IH. apply Permutation_swap.
Qed.

Lemma sort_desc_perm l : srt l ≡ₚ l.
Proof.
  induction l as [|x l IH]; simpl; [done|].
  by rewrite insert_desc_perm, IH.
Qed.

Lemma length_sort_desc l : length (srt l) = length l.
Proof. by rewrite sort_desc_perm. Qed.

Lemma sort_desc_fixed l : StronglySorted geK l → srt l = l.
Proof.
  induction 1 as [|x l Hl IH Hx]; simpl; [done|].
  rewrite IH. destruct Hx as [|y l' Hxy _]; simpl; [done|].
  unfold ge_key in Hxy. by rewrite Hxy.
Qed.

Hypothesis ltb_asym : ∀ a b, ltb a b = true → ltb b a = false.
Hypothesis geb_trans :
  ∀ a b c, ltb a b = false → ltb b c = false → ltb a c = false.

Lemma insert_desc_sorted x l :
  StronglySorted geK l → StronglySorted geK (ins x l).
Proof.
  induction 1 as [|y l Hl IH Hy]; simpl.
  - repeat constructor.
  - destruct (ltb (key x) (key y)) eqn:Hxy.
    + constructor; [done|].
      rewrite insert_desc_perm. constructor; [|done].
      by apply ltb_asym.
    + constructor; [by constructor|].
      constructor; [done|].
      eapply Forall_impl; [exact Hy|].
      intros z Hz. unfold ge_key in *. by eapply geb_trans.
Qed.

Lemma sort_desc_sorted l : StronglySorted geK (srt l).
Proof.
  induction l as [|x l IH]; simpl; [constructor|].
  by apply insert_desc_sorted.
Qed.

(** A sorted front that dominates the rest is left in place. *)
Lemma sort_desc_app_sorted l1 l2 :
  StronglySorted geK l1 →
  (∀ a b, a ∈ l1 → b ∈ l2 → geK a b) →
  srt (l1 ++ l2) = l1 ++ srt l2.
Proof.
  induction 1 as [|x l1 Hl1 IH Hx]; intros Hdom; simpl; [done|].
  rewrite IH by (intros a b Ha Hb; apply Hdom; [by right|done]).
  assert (Forall (geK x) (l1 ++ srt l2)) as Hall.
  { apply Forall_app; split; [done|].
    apply Forall_forall. intros b Hb. apply Hdom; [by left|].
    by rewrite sort_desc_perm in Hb. }
  destruct Hall as [|y r Hxy _]; simpl; [done|].
  unfold ge_key in Hxy. by rewrite Hxy.
Qed.

End StableSortFacts.

(** ** Merge engine *)

(** The worked example of the specification: a duplicate is dropped and
    the newer event comes first. *)
Example merge_spec_example :
  merge_events
    [tweet_event "100" "2024-01-01T00:00:00Z"]
    [tweet_event "100" "2024-01-01T00:00:00Z";
     tweet_event "200" "2024-01-02T00:00:00Z"] 100
  = [tweet_event "200" "2024-01-02T00:00:00Z";
     tweet_event "100" "2024-01-01T00:00:00Z"].
Proof. vm_compute. reflexivity. Qed.

Lemma length_slice_to {A} (m : Z) (l : list A) :
  Z.of_nat (length (slice_to m l)) =
  if m <? 0 then Z.max 0 (Z.of_nat (length l) + m)
  else Z.min m (Z.of_nat (length l)).
Proof.
  unfold slice_to. rewrite length_take.
  destruct (Z.ltb_spec m 0); lia.
Qed.

Lemma length_sort_by_time l : length (sort_by_time l) = length l.
Proof. apply length_sort_desc. Qed.

Lemma sort_by_time_sorted l :
  StronglySorted (ge_key time_key str_ltb) (sort_by_time l).
Proof. apply sort_desc_sorted; [apply str_ltb_asym|apply str_geb_trans]. Qed.

Lemma elem_of_existing_tweet_ids k l :
  k ∈ existing_tweet_ids l ↔ ∃ e, e ∈ l ∧ identity_key e = k.
Proof.
  unfold existing_tweet_ids. rewrite elem_of_list_to_set, list_elem_of_fmap.
  split; intros (e & H1 & H2); exists e; auto.
Qed.

Lemma elem_of_unique_new_events e existing new :
  e ∈ unique_new_events existing new ↔
  e ∈ new ∧ identity_key e ∉ existing_tweet_ids existing.
Proof. unfold unique_new_events. rewrite list_elem_of_filter. tauto. Qed.

Lemma length_merge_events_min existing_events new_events max_events :
  Z.min (Z.of_nat (length existing_events)) max_events
  ≤ Z.of_nat (length (merge_events existing_events new_events max_events)).
Proof.
  unfold merge_events. rewrite length_slice_to, length_sort_by_time, length_app.
  destruct (Z.ltb_spec max_events 0); lia.
Qed.

(** C1. The merged list is never shorter than [min(len(existing), max_events)];
    in particular, when the existing count is at most the cap, the merge
    does not shrink below the existing count. *)
Theorem merge_events_length_lower_bound
    (existing_events new_events : list Event) (max_events : Z) :
  Z.min (Z.of_nat (length existing_events)) max_events
    ≤ Z.of_nat (length (merge_events existing_events new_events max_events))
  ∧ (Z.of_nat (length existing_events) ≤ max_events →
     (length existing_events
        ≤ length (merge_events existing_events new_events max_events))%nat).
Proof.
  pose proof (length_merge_events_min existing_events new_events max_events).
  split; [done|]. intros Hcap. lia.
Qed.

Lemma merge_events_length_lower_bound_witness :
  Z.of_nat (length [tweet_event "100" "2024-01-01T00:00:00Z"]) ≤ 100
  ∧ (length [tweet_event "100" "2024-01-01T00:00:00Z"]
     ≤ length (merge_events [tweet_event "100" "2024-01-01T00:00:00Z"]
                 [tweet_event "200" "2024-01-02T00:00:00Z"] 100))%nat.
Proof.
  split; [simpl; lia|].
  apply (merge_events_length_lower_bound
           [tweet_event "100" "2024-01-01T00:00:00Z"]
           [tweet_event "200" "2024-01-02T00:00:00Z"] 100).
  simpl; lia.
Defined.

(** C3. Two events of one batch that share an identity key which the store
    does not hold are both kept: the merged store then holds the key twice. *)
Theorem merge_events_keeps_batch_duplicates :
  let a := tweet_event "200" "2024-01-02T00:00:00Z" in
  let b := tweet_event "200" "2024-01-02T09:30:00Z" in
  let existing := [tweet_event "100" "2024-01-01T00:00:00Z"] in
  NoDup (identity_key <$> existing)
  ∧ merge_events existing [a; b] 100
    = [b; a; tweet_event "100" "2024-01-01T00:00:00Z"]
  ∧ identity_key a = identity_key b
  ∧ ¬ NoDup (identity_key <$> merge_events existing [a; b] 100).
Proof.
  cbv zeta. split; [|split; [|split]].
  - apply NoDup_singleton.
  - vm_compute. reflexivity.
  - vm_compute. reflexivity.
  - replace (merge_events _ _ _) with
      [tweet_event "200" "2024-01-02T09:30:00Z";
       tweet_event "200" "2024-01-02T00:00:00Z";
       tweet_event "100" "2024-01-01T00:00:00Z"]
      by (vm_compute; reflexivity).
    intros Hnd. vm_compute in Hnd. apply NoDup_cons in Hnd as [Hnotin _].
    apply Hnotin. left.
Qed.

(** C4, as stated, fails: the cap evicts the only stored holder of key
    ["1"], after which the same batch is no longer recognised as known. *)
Lemma merge_events_not_idempotent :
  let existing := [tweet_event "1" "2024-01-01T00:00:00Z";
                   tweet_event "2" "2024-01-02T00:00:00Z"] in
  let new := [tweet_event "1" "2024-01-05T00:00:00Z"] in
  merge_events existing new 1 = [tweet_event "2" "2024-01-02T00:00:00Z"]
  ∧ merge_events (merge_events existing new 1) new 1
    = [tweet_event "1" "2024-01-05T00:00:00Z"]
  ∧ merge_events (merge_events existing new 1) new 1
    ≠ merge_events existing new 1.
Proof.
  cbv zeta.
  assert (merge_events [tweet_event "1" "2024-01-01T00:00:00Z";
                        tweet_event "2" "2024-01-02T00:00:00Z"]
            [tweet_event "1" "2024-01-05T00:00:00Z"] 1
          = [tweet_event "2" "2024-01-02T00:00:00Z"]) as E1
    by (vm_compute; reflexivity).
  rewrite E1.
  assert (merge_events [tweet_event "2" "2024-01-02T00:00:00Z"]
            [tweet_event "1" "2024-01-05T00:00:00Z"] 1
          = [tweet_event "1" "2024-01-05T00:00:00Z"]) as E2
    by (vm_compute; reflexivity).
  rewrite E2. repeat split. intros Heq.
  apply (f_equal (fmap identity_key)) in Heq. vm_compute in Heq. discriminate.
Qed.

(** Elements cut off by the cap are not newer than the ones kept. *)
Lemma take_drop_sorted_ge (l : list Event) (n : nat) a b :
  StronglySorted (ge_key time_key str_ltb) l →
  a ∈ take n l → b ∈ drop n l → ge_key time_key str_ltb a b.
Proof.
  intros Hs Ha Hb. rewrite <- (take_drop n l) in Hs.
  by eapply StronglySorted_app_1_elem_of.
Qed.

(** C4 (amended). For a non-negative cap, re-running the merge with the
    same batch changes nothing provided every identity key that the batch
    shares with the store is still held by the first merge's result. *)
Theorem merge_events_idempotent_when_shared_keys_kept
    (existing_events new_events : list Event) (max_events : Z) :
  0 ≤ max_events →
  (∀ e, e ∈ new_events →
        identity_key e ∈ existing_tweet_ids existing_events →
        identity_key e ∈ existing_tweet_ids
                           (merge_events existing_events new_events max_events)) →
  merge_events (merge_events existing_events new_events max_events)
               new_events max_events
  = merge_events existing_events new_events max_events.
Proof.
  intros Hmax Hkept.
  set (m := Z.to_nat max_events).
  set (S1 := sort_by_time
               (existing_events ++ unique_new_events existing_events new_events)).
  assert (∀ l : list Event, slice_to max_events l = take m l) as Hslice.
  { intros l. unfold slice_to. by destruct (Z.ltb_spec max_events 0); [lia|]. }
  assert (merge_events existing_events new_events max_events = take m S1) as HM1.
  { unfold merge_events. by rewrite Hslice. }
  rewrite HM1 in *.
  set (new' := unique_new_events (take m S1) new_events).
  assert (∀ e, e ∈ new' → e ∈ drop m S1) as Hdropped.
  { intros e [Hnew Hfresh]%elem_of_unique_new_events.
    assert (identity_key e ∉ existing_tweet_ids existing_events) as Hnot
      by (intros Hin; by apply Hfresh, Hkept).
    assert (e ∈ S1) as HinS.
    { unfold S1, sort_by_time. rewrite sort_desc_perm, elem_of_app. right.
      by apply elem_of_unique_new_events. }
    rewrite <- (take_drop m S1), elem_of_app in HinS.
    destruct HinS as [Hin|Hin]; [|done].
    exfalso. apply Hfresh, elem_of_existing_tweet_ids. by exists e. }
  assert (StronglySorted (ge_key time_key str_ltb) S1) as Hsorted
    by apply sort_by_time_sorted.
  unfold merge_events at 1. fold new'. rewrite Hslice.
  unfold sort_by_time. rewrite sort_desc_app_sorted.
  - destruct new' as [|e0 rest] eqn:Hnew'.
    + simpl. rewrite app_nil_r. apply take_ge. rewrite length_take. lia.
    + assert (e0 ∈ drop m S1) as Hin by (apply Hdropped; left).
      assert (m < length S1)%nat as Hlen.
      { destruct (decide (m < length S1)%nat) as [|Hge]; [done|].
        rewrite drop_ge in Hin by lia. by apply elem_of_nil in Hin. }
      apply take_app_length'. rewrite length_take. lia.
  - rewrite <- (take_drop m S1) in Hsorted.
    by apply StronglySorted_app_1_l in Hsorted.
  - intros a b Ha Hb. eapply take_drop_sorted_ge; [exact Hsorted|done|].
    by apply Hdropped.
Qed.

Lemma merge_events_idempotent_witness :
  merge_events
    (merge_events [tweet_event "100" "2024-01-01T00:00:00Z"]
       [tweet_event "100" "2024-01-01T00:00:00Z";
        tweet_event "200" "2024-01-02T00:00:00Z"] 100)
    [tweet_event "100" "2024-01-01T00:00:00Z";
     tweet_event "200" "2024-01-02T00:00:00Z"] 100
  = merge_events [tweet_event "100" "2024-01-01T00:00:00Z"]
      [tweet_event "100" "2024-01-01T00:00:00Z";
       tweet_event "200" "2024-01-02T00:00:00Z"] 100.
Proof.
  apply merge_events_idempotent_when_shared_keys_kept; [lia|].
  intros e He _. apply elem_of_existing_tweet_ids. exists e. split; [|done].
  replace (merge_events _ _ _) with
    [tweet_event "200" "2024-01-02T00:00:00Z";
     tweet_event "100" "2024-01-01T00:00:00Z"] by (vm_compute; reflexivity).
  apply elem_of_cons in He as [->|He]; [right; left|].
  apply list_elem_of_singleton in He as ->. left.
Defined.

Lemma unique_new_events_drop_null existing_events new_events :
  PNone ∈ existing_tweet_ids existing_events →
  unique_new_events existing_events new_events
  = unique_new_events existing_events
      (filter (λ n, ev_tweetId n ≠ Some PNone) new_events).
Proof.
  intros Hnull. unfold unique_new_events.
  induction new_events as [|n l IH]; [done|].
  destruct (decide (ev_tweetId n = Some PNone)) as [Hn|Hn].
  - rewrite (filter_cons_False (λ n, ev_tweetId n ≠ Some PNone)) by tauto.
    rewrite filter_cons_False; [done|].
    unfold identity_key. rewrite Hn. tauto.
  - rewrite (filter_cons_True (λ n, ev_tweetId n ≠ Some PNone)) by done.
    rewrite !filter_cons. by rewrite IH.
Qed.

(** C10. A [tweetId] that is present with value [null] is the identity key,
    whatever the [id]; once the store holds an event whose key is [null],
    every such new event is dropped as a duplicate. *)
Theorem merge_events_null_tweetId_dropped
    (existing_events new_events : list Event) (max_events : Z) (e0 : Event) :
  e0 ∈ existing_events →
  identity_key e0 = PNone →
  (∀ n, ev_tweetId n = Some PNone → identity_key n = PNone)
  ∧ (∀ n, ev_tweetId n = Some PNone →
          n ∉ unique_new_events existing_events new_events)
  ∧ merge_events existing_events new_events max_events
    = merge_events existing_events
        (filter (λ n, ev_tweetId n ≠ Some PNone) new_events) max_events
  ∧ (∀ n, ev_tweetId n = Some PNone → n ∉ existing_events →
          n ∉ merge_events existing_events new_events max_events).
Proof.
  intros Hin Hkey.
  assert (PNone ∈ existing_tweet_ids existing_events) as Hnull
    by (apply elem_of_existing_tweet_ids; by exists e0).
  assert (∀ n, ev_tweetId n = Some PNone → identity_key n = PNone) as Hk.
  { intros n Hn. unfold identity_key. by rewrite Hn. }
  assert (∀ n, ev_tweetId n = Some PNone →
               n ∉ unique_new_events existing_events new_events) as Hdrop.
  { intros n Hn [_ Hfresh]%elem_of_unique_new_events.
    apply Hfresh. by rewrite (Hk n Hn). }
  repeat split; [done|done| |].
  - unfold merge_events. by rewrite <- unique_new_events_drop_null.
  - intros n Hn Hnot Hmerged. unfold merge_events, slice_to in Hmerged.
    apply elem_of_take in Hmerged as (i & Hi & _).
    apply list_elem_of_lookup_2 in Hi.
    unfold sort_by_time in Hi. rewrite sort_desc_perm, elem_of_app in Hi.
    destruct Hi as [Hi|Hi]; [done|]. by apply (Hdrop n).
Qed.

Lemma merge_events_null_tweetId_dropped_witness :
  merge_events [null_tweetId_event "7" "2024-01-01T00:00:00Z"]
    [null_tweetId_event "8" "2024-01-03T00:00:00Z";
     tweet_event "200" "2024-01-02T00:00:00Z"] 100
  = [tweet_event "200" "2024-01-02T00:00:00Z";
     null_tweetId_event "7" "2024-01-01T00:00:00Z"].
Proof.
  destruct (merge_events_null_tweetId_dropped
              [null_tweetId_event "7" "2024-01-01T00:00:00Z"]
              [null_tweetId_event "8" "2024-01-03T00:00:00Z";
               tweet_event "200" "2024-01-02T00:00:00Z"] 100
              (null_tweetId_event "7" "2024-01-01T00:00:00Z"))
    as (_ & _ & Heq & _).
  - left.
  - reflexivity.
  - rewrite Heq. vm_compute. reflexivity.
Defined.

(** ** Regular expressions *)

Example re_class : re "seiz[uo]re" =
  Cat (Chr 115) (Cat (Chr 101) (Cat (Chr 105) (Cat (Chr 122)
    (Cat (OneOf [117; 111]%N) (Cat (Chr 114) (Cat (Chr 101) Eps)))))).
Proof. reflexivity. Qed.

Example re_postfix : re "a.?b*\S+" =
  Cat (Chr 97) (Cat (Opt Dot) (Cat (Star (Chr 98)) (Cat (Plus NonSpace) Eps))).
Proof. reflexivity. Qed.

Example re_search_gap :
  re_search (re "vessel.*not.*allowed") (u "the vessel is not yet allowed in") = true
  ∧ re_search (re "vessel.*not.*allowed") (u "allowed: not a vessel") = false
  ∧ re_search (re "air.?defen[cs]e") (u "new air-defense battery") = true
  ∧ re_search (re "air.?defen[cs]e") (u "air  defence") = false.
Proof. vm_compute. done. Qed.

Example re_sub_urls :
  re_sub_empty (re "https?://\S+") (u "see https://t.co/abc and http://x.y now http:// end")
  = u "see  and  now http:// end".
Proof. vm_compute. reflexivity. Qed.

(** *** The matcher decides the denotation *)

Section Derivatives.

Lemma matches_nil_nullable r : matches r [] ↔ nullable r = true.
Proof.
  split.
  - remember [] as s eqn:Hs. induction 1; simpl; try done.
    + apply app_eq_nil in Hs as [-> ->]. by rewrite IHmatches1, IHmatches2.
    + by rewrite IHmatches.
    + rewrite IHmatches by done. by rewrite orb_true_r.
  - induction r; simpl; try done.
    + intros _. constructor.
    + intros [H1 H2]%andb_true_iff.
      change (@nil N) with (@nil N ++ []). constructor; auto.
    + intros [H|H]%orb_true_iff; [apply matches_alt_l|apply matches_alt_r]; auto.
    + intros _. constructor.
Qed.

Lemma matches_mkCat r1 r2 s : matches (mkCat r1 r2) s ↔ matches (Cat r1 r2) s.
Proof.
  split.
  - destruct r1, r2; simpl; try done; try (by inversion 1);
      intros H; by apply (matches_cat Eps _ [] s); [constructor|].
  - intros H. inversion H as [| | | | |? ? s1 s2 H1 H2| | | |]; subst.
    destruct r1; try (by inversion H1);
      destruct r2; simpl; try (by inversion H2); try (by constructor);
      inversion H1; subst; done.
Qed.

Lemma matches_mkAlt r1 r2 s : matches (mkAlt r1 r2) s ↔ matches (Alt r1 r2) s.
Proof.
  split.
  - destruct r1, r2; simpl; try done;
      try (by intros H; apply matches_alt_l);
      try (by intros H; apply matches_alt_r).
  - intros H. inversion H; subst.
    + destruct r1; try (by inversion H3);
        destruct r2; simpl; try done; by apply matches_alt_l.
    + destruct r2; try (by inversion H3);
        destruct r1; simpl; try done; by apply matches_alt_r.
Qed.

Lemma matches_of_bool b s : matches (of_bool b) s ↔ b = true ∧ s = [].
Proof.
  destruct b; simpl; split.
  - by inversion 1.
  - intros [_ ->]. constructor.
  - inversion 1.
  - by intros [? _].
Qed.

Lemma existsb_eqb_elem_of c cs : existsb (N.eqb c) cs = true ↔ c ∈ cs.
Proof.
  rewrite existsb_exists. split.
  - intros (d & Hd & ->%N.eqb_eq). by apply list_elem_of_In.
  - intros Hc. exists c. split; [by apply list_elem_of_In|apply N.eqb_refl].
Qed.

Lemma matches_deriv_2 c r s : matches r (c :: s) → matches (deriv c r) s.
Proof.
  remember (c :: s) as s' eqn:Hs. intros H. revert s Hs.
  induction H as [|d|d Hd|d cs Hd|d Hd|r1 r2 s1 s2 H1 IH1 H2 IH2
                  |r1 r2 s1 H1 IH1|r1 r2 s1 H1 IH1| |r s1 s2 H1 IH1 H2 IH2];
    intros s Hs; simpl.
  - done.
  - injection Hs as -> <-. apply matches_of_bool. by rewrite N.eqb_refl.
  - injection Hs as -> <-. apply matches_of_bool. split; [|done].
    by apply negb_true_iff, N.eqb_neq.
  - injection Hs as -> <-. apply matches_of_bool. split; [|done].
    by apply existsb_eqb_elem_of.
  - injection Hs as -> <-. apply matches_of_bool. by rewrite Hd.
  - destruct s1 as [|c1 s1].
    + simpl in Hs. subst s2.
      apply matches_nil_nullable in H1. rewrite H1.
      apply matches_mkAlt, matches_alt_r. by apply IH2.
    + injection Hs as -> <-.
      assert (matches (mkCat (deriv c r1) r2) (s1 ++ s2)) as Hd.
      { apply matches_mkCat. constructor; [by apply IH1|done]. }
      destruct (nullable r1); [|done].
      by apply matches_mkAlt, matches_alt_l.
  - apply matches_mkAlt, matches_alt_l. by apply IH1.
  - apply matches_mkAlt, matches_alt_r. by apply IH1.
  - done.
  - destruct s1 as [|c1 s1].
    + by apply IH2.
    + injection Hs as -> <-. apply matches_mkCat.
      constructor; [by apply IH1|done].
Qed.

Lemma matches_deriv_1 c r s : matches (deriv c r) s → matches r (c :: s).
Proof.
  revert s. induction r as [| |d| |cs| |r1 IH1 r2 IH2|r1 IH1 r2 IH2|r1 IH1];
    intros s; simpl.
  - inversion 1.
  - inversion 1.
  - intros [->%N.eqb_eq ->]%matches_of_bool. constructor.
  - intros [Hc%negb_true_iff%N.eqb_neq ->]%matches_of_bool. by constructor.
  - intros [Hc%existsb_eqb_elem_of ->]%matches_of_bool. by constructor.
  - intros [Hc%negb_true_iff ->]%matches_of_bool. by constructor.
  - assert (matches (mkCat (deriv c r1) r2) s → matches (Cat r1 r2) (c :: s))
      as Hleft.
    { intros H%matches_mkCat.
      inversion H as [| | | | |? ? s1 s2 H1 H2| | | |]; subst.
      apply (matches_cat r1 r2 (c :: s1) s2); [by apply IH1|done]. }
    destruct (nullable r1) eqn:Hn; [|done].
    intros H%matches_mkAlt. inversion H; subst; [by apply Hleft|].
    apply (matches_cat r1 r2 [] (c :: s)); [by apply matches_nil_nullable|].
    by apply IH2.
  - intros H%matches_mkAlt. inversion H; subst.
    + apply matches_alt_l. by apply IH1.
    + apply matches_alt_r. by apply IH2.
  - intros H%matches_mkCat.
    inversion H as [| | | | |? ? s1 s2 H1 H2| | | |]; subst.
    apply (matches_star_cons r1 (c :: s1) s2); [by apply IH1|done].
Qed.

Lemma match_prefix_spec r s :
  match_prefix r s = true ↔ ∃ s1 s2, s = s1 ++ s2 ∧ matches r s1.
Proof.
  revert r. induction s as [|c s IH]; intros r; simpl.
  - rewrite orb_false_r, <- matches_nil_nullable. split.
    + intros H. by exists [], [].
    + intros (s1 & s2 & Hs & H). symmetry in Hs.
      by apply app_eq_nil in Hs as [-> _].
  - rewrite orb_true_iff, IH, <- matches_nil_nullable. split.
    + intros [H|(s1 & s2 & -> & H)].
      * by exists [], (c :: s).
      * exists (c :: s1), s2. split; [done|]. by apply matches_deriv_1.
    + intros ([|c' s1] & s2 & Hs & H); [by left|right].
      injection Hs as <- ->. exists s1, s2. split; [done|].
      by apply matches_deriv_2.
Qed.

(** [re_search] decides whether the pattern matches somewhere in the text. *)
Lemma re_search_spec r text : re_search r text = true ↔ occurs_in r text.
Proof.
  unfold occurs_in. induction text as [|c text IH].
  - change (re_search r []) with (match_prefix r [] || false).
    rewrite orb_false_r, match_prefix_spec. split.
    + intros (s1 & s2 & Hs & H). by exists [], s1, s2.
    + intros (pre & mid & post & Hs & H). symmetry in Hs.
      apply app_eq_nil in Hs as [-> [-> ->]%app_eq_nil]. by exists [], [].
  - change (re_search r (c :: text))
      with (match_prefix r (c :: text) || re_search r text).
    rewrite orb_true_iff, IH, match_prefix_spec. split.
    + intros [(s1 & s2 & Hs & H)|(pre & mid & post & -> & H)].
      * by exists [], s1, s2.
      * by exists (c :: pre), mid, post.
    + intros ([|c' pre] & mid & post & Hs & H).
      * left. by exists mid, post.
      * right. injection Hs as <- ->. by exists pre, mid, post.
Qed.

(** [longest_match] returns the length of the longest matching prefix. *)
Lemma longest_match_spec r s :
  match longest_match r s with
  | Some n =>
    (n ≤ length s)%nat ∧ matches r (take n s)
    ∧ ∀ m, (n < m)%nat → (m ≤ length s)%nat → ¬ matches r (take m s)
  | None => ∀ m, ¬ matches r (take m s)
  end.
Proof.
  revert r. induction s as [|c s IH]; intros r.
  - simpl. destruct (nullable r) eqn:Hn.
    + split; [done|]. split; [by apply matches_nil_nullable|]. simpl. lia.
    + intros m. rewrite take_nil. rewrite matches_nil_nullable. congruence.
  - change (longest_match r (c :: s))
      with (match longest_match (deriv c r) s with
            | Some n => Some (S n)
            | None => if nullable r then Some O else None
            end).
    specialize (IH (deriv c r)).
    destruct (longest_match (deriv c r) s) as [n|].
    + destruct IH as (Hlen & Hm & Hmax). split; [simpl; lia|].
      split; [by apply matches_deriv_1|].
      intros [|m] Hlt Hle; [lia|]. simpl in Hle |- *.
      intros H%matches_deriv_2. apply (Hmax m); [lia|lia|done].
    + assert (∀ m, ¬ matches r (take (S m) (c :: s))) as Hpos.
      { intros m H%matches_deriv_2. by apply (IH m). }
      destruct (nullable r) eqn:Hn.
      * split; [simpl; lia|]. split; [by apply matches_nil_nullable|].
        intros [|m] Hlt _; [lia|apply Hpos].
      * intros [|m]; [|apply Hpos].
        simpl. rewrite matches_nil_nullable. congruence.
Qed.

End Derivatives.

(** ** Classifier *)

Lemma search_patterns_true patterns text :
  search_patterns patterns text = true ↔
  ∃ p, p ∈ patterns ∧ re_search p text = true.
Proof.
  induction patterns as [|p ps IH]; simpl.
  - split; [done|]. intros (p & Hp & _). by apply elem_of_nil in Hp.
  - destruct (re_search p text) eqn:Hp.
    + split; [|done]. intros _. exists p. split; [left|done].
    + rewrite IH. split.
      * intros (q & Hq & Hm). exists q. split; [by right|done].
      * intros (q & Hq & Hm). apply elem_of_cons in Hq as [->|Hq]; [congruence|].
        by exists q.
Qed.

Lemma search_types_first before ty pats after text :
  (∀ ty' pats', (ty', pats') ∈ before → search_patterns pats' text = false) →
  search_patterns pats text = true →
  search_types (before ++ (ty, pats) :: after) text = Some ty.
Proof.
  induction before as [|[ty0 pats0] before IH]; simpl; intros Hbefore Hhere.
  - by rewrite Hhere.
  - rewrite (Hbefore ty0 pats0) by left.
    apply IH; [|done]. intros ty' pats' Hin. apply (Hbefore ty'). by right.
Qed.

Lemma search_types_none table text :
  (∀ ty pats, (ty, pats) ∈ table → search_patterns pats text = false) →
  search_types table text = None.
Proof.
  induction table as [|[ty0 pats0] table IH]; simpl; intros Hnone; [done|].
  rewrite (Hnone ty0 pats0) by left.
  apply IH. intros ty pats Hin. apply (Hnone ty). by right.
Qed.

Lemma search_patterns_occurs patterns text :
  search_patterns patterns text = true ↔ ∃ p, p ∈ patterns ∧ occurs_in p text.
Proof.
  rewrite search_patterns_true. by setoid_rewrite re_search_spec.
Qed.

Lemma search_patterns_none patterns text :
  (∀ p, p ∈ patterns → ¬ occurs_in p text) →
  search_patterns patterns text = false.
Proof.
  intros Hnone. destruct (search_patterns patterns text) eqn:Hs; [|done].
  apply search_patterns_occurs in Hs as (p & Hp & Hm). by destruct (Hnone p).
Qed.

(** C5. The rule table lists strike, blockade, airspace, intel, diplomatic
    in this order; the classifier returns the first type of the table one of
    whose patterns matches somewhere in the lower-cased text, and ["intel"]
    when no pattern of any type does. *)
Theorem classify_event_type_first_match (lower : pystr → pystr) (text : pystr) :
  fst <$> EVENT_TYPE_PATTERNS
    = [u "strike"; u "blockade"; u "airspace"; u "intel"; u "diplomatic"]
  ∧ (∀ before ty pats after,
       EVENT_TYPE_PATTERNS = before ++ (ty, pats) :: after →
       (∀ ty' pats' p, (ty', pats') ∈ before → p ∈ pats' →
                       ¬ occurs_in p (lower text)) →
       (∃ p, p ∈ pats ∧ occurs_in p (lower text)) →
       classify_event_type lower text = ty)
  ∧ ((∀ ty pats p, (ty, pats) ∈ EVENT_TYPE_PATTERNS → p ∈ pats →
                   ¬ occurs_in p (lower text)) →
     classify_event_type lower text = u "intel").
Proof.
  split; [reflexivity|split].
  - intros before ty pats after Htable Hbefore Hhere.
    unfold classify_event_type. rewrite Htable.
    rewrite (search_types_first before ty pats after); [done| |].
    + intros ty' pats' Hin. apply search_patterns_none.
      intros p Hp. by apply (Hbefore ty' pats').
    + by apply search_patterns_occurs.
  - intros Hnone. unfold classify_event_type.
    rewrite search_types_none; [done|].
    intros ty pats Hin. apply search_patterns_none.
    intros p Hp. by apply (Hnone ty pats).
Qed.

(** A message with both strike and diplomatic vocabulary is a strike; one
    with only diplomatic vocabulary is diplomatic; the example of the
    specification is a strike; a text without any keyword is intel. *)
Example classify_event_type_examples :
  classify_event_type ascii_lower (u "Israel condemns AIRSTRIKE near border")
    = u "strike"
  ∧ classify_event_type ascii_lower (u "Minister WARNS of consequences")
    = u "diplomatic"
  ∧ classify_event_type ascii_lower (u "以色列对德黑兰实施空袭") = u "strike"
  ∧ classify_event_type ascii_lower (u "Vessel was NOT allowed to pass")
    = u "blockade"
  ∧ classify_event_type ascii_lower (u "good morning") = u "intel".
Proof. vm_compute. done. Qed.

(** ** Title of a new event *)

Lemma rfind_from_spec c s i :
  (rfind_from i c s = -1 ∧ c ∉ s ∨
   ∃ k : nat, rfind_from i c s = i + Z.of_nat k ∧ s !! k = Some c ∧
              ∀ j : nat, (k < j)%nat → s !! j ≠ Some c) ∨ i < 0.
Proof.
  destruct (Z.ltb_spec i 0) as [|Hi]; [by right|left].
  revert i Hi. induction s as [|d s IH]; intros i Hi; simpl.
  - left. split; [done|]. apply not_elem_of_nil.
  - destruct (IH (i + 1) ltac:(lia)) as [[Hr Hnot]|(k & Hr & Hk & Hlast)].
    + rewrite Hr. simpl. destruct (N.eqb_spec d c) as [->|Hne].
      * right. exists O. split; [lia|]. split; [done|].
        intros [|j] Hj; [lia|]. simpl. intros Hin.
        apply Hnot. by eapply list_elem_of_lookup_2.
      * left. split; [done|]. by apply not_elem_of_cons.
    + rewrite Hr. destruct (Z.leb_spec 0 (i + 1 + Z.of_nat k)); [|lia].
      right. exists (S k). split; [lia|]. split; [done|].
      intros [|j] Hj; [lia|]. simpl. apply Hlast. lia.
Qed.

Lemma rfind_spec c s :
  rfind c s = -1 ∧ c ∉ s ∨
  ∃ k : nat, rfind c s = Z.of_nat k ∧ s !! k = Some c ∧
             ∀ j : nat, (k < j)%nat → s !! j ≠ Some c.
Proof.
  unfold rfind. destruct (rfind_from_spec c s 0) as [[H|H]|H]; [by left| |lia].
  right. destruct H as (k & Hr & H). exists k. by rewrite Hr.
Qed.

(** C6, as stated, fails: a long body whose first fifty characters hold no
    space beyond index 30 is cut at the limit, inside a word, and gets no
    ellipsis. *)
Lemma title_without_ellipsis :
  let text := u "BREAKING: https://example.com/live/updates/middle-east/2024" in
  (50 < length text)%nat
  ∧ parse_tweet_to_event_title text
    = u "BREAKING: https://example.com/live/updates/middle-"
  ∧ ∀ p, parse_tweet_to_event_title text ≠ p ++ u "...".
Proof.
  cbv zeta. split; [vm_compute; lia|].
  assert (parse_tweet_to_event_title
            (u "BREAKING: https://example.com/live/updates/middle-east/2024")
          = u "BREAKING: https://example.com/live/updates/middle-") as E
    by (vm_compute; reflexivity).
  rewrite E. split; [done|]. intros p Heq.
  apply (f_equal reverse) in Heq. rewrite reverse_app in Heq.
  vm_compute in Heq. discriminate.
Qed.

(** C6 (amended). For a body longer than fifty characters, let [p] be its
    first fifty characters, stripped.  When the last space of [p] stands
    beyond index 30, the title is [p] cut at that space, followed by the
    ellipsis; otherwise the title is [p] itself, without ellipsis. *)
Theorem title_of_long_text (text : pystr) :
  (50 < length text)%nat →
  let p := strip (take 50 text) in
  (30 < rfind 32%N p →
     ∃ k : nat, rfind 32%N p = Z.of_nat k ∧ p !! k = Some 32%N
       ∧ (∀ j : nat, (k < j)%nat → p !! j ≠ Some 32%N)
       ∧ parse_tweet_to_event_title text = take k p ++ u "...")
  ∧ (rfind 32%N p ≤ 30 → parse_tweet_to_event_title text = p).
Proof.
  intros Hlen p. unfold parse_tweet_to_event_title. fold p.
  destruct (Nat.ltb_spec 50 (length text)) as [_|]; [|lia].
  split.
  - intros Hsp. destruct (Z.ltb_spec 30 (rfind 32%N p)) as [_|]; [|lia].
    destruct (rfind_spec 32%N p) as [[Hr _]|(k & Hr & Hk & Hlast)]; [lia|].
    exists k. rewrite Hr, Nat2Z.id. done.
  - intros Hsp. by destruct (Z.ltb_spec 30 (rfind 32%N p)) as [|_]; [lia|].
Qed.

Lemma title_of_long_text_witness :
  parse_tweet_to_event_title
    (u "Israeli jets strike targets near Damascus airport overnight")
  = u "Israeli jets strike targets near Damascus...".
Proof.
  pose proof (title_of_long_text
    (u "Israeli jets strike targets near Damascus airport overnight")) as H.
  destruct H as [H _]; [vm_compute; lia|].
  destruct H as (k & Hk & _ & _ & Ht); [vm_compute; reflexivity|].
  assert (k = 41%nat) as ->.
  { apply Nat2Z.inj. rewrite <- Hk. vm_compute. reflexivity. }
  rewrite Ht. vm_compute. reflexivity.
Defined.

(** ** Source-language heuristics *)

Lemma existsb_true_iff {A} (f : A → bool) (l : list A) :
  existsb f l = true ↔ ∃ x, x ∈ l ∧ f x = true.
Proof.
  rewrite existsb_exists. by setoid_rewrite list_elem_of_In.
Qed.

Lemma existsb_false_iff {A} (f : A → bool) (l : list A) :
  existsb f l = false ↔ ∀ x, x ∈ l → f x = false.
Proof.
  rewrite <- not_true_iff_false, existsb_true_iff. split.
  - intros Hno x Hx. destruct (f x) eqn:Hf; [|done]. exfalso. eauto.
  - intros Hall (x & Hx & Hf). rewrite (Hall x Hx) in Hf. done.
Qed.

(** C7, as stated, fails for new content: an Arabic headline that holds
    one non-ASCII character outside the Arabic block (here a dash) is taken
    for Chinese, while [detect_language] takes it for Arabic. *)
Lemma mixed_script_detected_as_chinese :
  let title := u "عاجل – غارة على طهران" in
  existsb in_arabic_range title = true
  ∧ original_lang title = u "zh"
  ∧ original_lang title ≠ u "ar"
  ∧ detect_language title = u "ar".
Proof. vm_compute. repeat split; discriminate. Qed.

(** C7 (amended). For new content ([original_lang]) a non-ASCII character
    outside the Arabic range decides for Chinese, whatever else the text
    holds; failing that, an Arabic-range character decides for Arabic;
    an all-ASCII text is English.  [detect_language] answers ["auto"] on
    the empty text and otherwise gives Arabic precedence: Arabic when an
    Arabic-range character occurs, else Chinese when a non-ASCII character
    occurs, else English. *)
Theorem language_heuristics (text : pystr) :
  ((∃ c, c ∈ text ∧ non_ascii c = true ∧ in_arabic_range c = false) →
     original_lang text = u "zh")
  ∧ ((∀ c, c ∈ text → non_ascii c = true → in_arabic_range c = true) →
     (∃ c, c ∈ text ∧ in_arabic_range c = true) →
     original_lang text = u "ar")
  ∧ ((∀ c, c ∈ text → non_ascii c = false) → original_lang text = u "en")
  ∧ (text = [] → detect_language text = u "auto")
  ∧ (text ≠ [] → (∃ c, c ∈ text ∧ in_arabic_range c = true) →
     detect_language text = u "ar")
  ∧ (text ≠ [] → (∀ c, c ∈ text → in_arabic_range c = false) →
     (∃ c, c ∈ text ∧ non_ascii c = true) →
     detect_language text = u "zh-CN")
  ∧ (text ≠ [] → (∀ c, c ∈ text → non_ascii c = false) →
     detect_language text = u "en").
Proof.
  assert (∀ c, in_arabic_range c = true → non_ascii c = true) as Hsub.
  { intros c. unfold in_arabic_range, non_ascii.
    intros [H1 H2]%andb_true_iff. apply N.ltb_lt. apply N.leb_le in H1. lia. }
  repeat split.
  - intros (c & Hc & Hn & Ha). unfold original_lang.
    replace (existsb _ text) with true; [done|].
    symmetry. apply existsb_true_iff. exists c. by rewrite Hn, Ha.
  - intros Honly Har. unfold original_lang.
    replace (existsb (λ c, non_ascii c && negb (in_arabic_range c)) text)
      with false.
    + apply existsb_true_iff in Har. by rewrite Har.
    + symmetry. apply existsb_false_iff. intros c Hc.
      destruct (non_ascii c) eqn:Hn; [|done]. by rewrite (Honly c Hc Hn).
  - intros Hascii. unfold original_lang.
    replace (existsb (λ c, non_ascii c && negb (in_arabic_range c)) text)
      with false.
    + replace (existsb in_arabic_range text) with false; [done|].
      symmetry. apply existsb_false_iff. intros c Hc.
      destruct (in_arabic_range c) eqn:Ha; [|done].
      pose proof (Hascii c Hc) as Hx. by rewrite (Hsub c Ha) in Hx.
    + symmetry. apply existsb_false_iff. intros c Hc. by rewrite (Hascii c Hc).
  - by intros ->.
  - intros Hne Har. destruct text as [|c0 t]; [done|]. unfold detect_language.
    apply existsb_true_iff in Har. by rewrite Har.
  - intros Hne Hnoar Hna. destruct text as [|c0 t]; [done|].
    unfold detect_language.
    apply existsb_false_iff in Hnoar. apply existsb_true_iff in Hna.
    by rewrite Hnoar, Hna.
  - intros Hne Hascii. destruct text as [|c0 t]; [done|].
    unfold detect_language.
    replace (existsb in_arabic_range (c0 :: t)) with false.
    + apply existsb_false_iff in Hascii. by rewrite Hascii.
    + symmetry. apply existsb_false_iff. intros c Hc.
      destruct (in_arabic_range c) eqn:Ha; [|done].
      pose proof (Hascii c Hc) as Hx. by rewrite (Hsub c Ha) in Hx.
Qed.

(** ** Translation completion *)

Module TranslateFacts.
Import Translate.

Lemma fills_refl t : fills t t.
Proof. intros lang field. split; [done|]. split; [|done]. intros v' Hv'. by left. Qed.

Lemma fills_trans t1 t2 t3 : fills t1 t2 → fills t2 t3 → fills t1 t3.
Proof.
  intros H12 H23 lang field.
  destruct (H12 lang field) as (Hk12 & Hn12 & Ho12).
  destruct (H23 lang field) as (Hk23 & Hn23 & Ho23).
  split; [|split].
  - intros v Hv Hne. apply Hk23; [|done]. by apply Hk12.
  - intros v' Hv'. destruct (Hn23 v' Hv') as [H2|[Hvac Hne]].
    + by apply Hn12.
    + right. split; [|done].
      destruct (slot t1 lang field) as [[|c v]|] eqn:H1;
        [by right|exfalso|by left].
      assert (slot t2 lang field = Some (c :: v)) as H2 by by apply Hk12.
      destruct Hvac as [Hvac|Hvac]; congruence.
  - intros Hnt. by rewrite Ho23, Ho12.
Qed.

Lemma truthy_false s : truthy s = false → s = [].
Proof. by destruct s. Qed.

Lemma truthy_true s : truthy s = true → s ≠ [].
Proof. by destruct s. Qed.

Lemma fills_same_slots t1 t2 :
  (∀ lang field, slot t2 lang field = slot t1 lang field) → fills t1 t2.
Proof.
  intros Heq lang field. rewrite Heq.
  split; [done|]. split; [|done]. intros v' Hv'. by left.
Qed.

Lemma fills_new_entry t lang : t !! lang = None → fills t (<[lang := ∅]> t).
Proof.
  intros Hnone. apply fills_same_slots. intros l f. unfold slot.
  destruct (decide (lang = l)) as [<-|Hne].
  - by rewrite lookup_insert_eq, Hnone.
  - by rewrite lookup_insert_ne.
Qed.

Lemma fills_vacant_slot t lang field text :
  target_slot lang field →
  truthy (default [] (default ∅ (t !! lang) !! field)) = false →
  truthy text = true →
  fills t (<[lang := <[field := text]> (default ∅ (t !! lang))]> t).
Proof.
  intros Htarget Hvac%truthy_false Htext%truthy_true l f.
  destruct (decide (lang = l ∧ field = f)) as [[<- <-]|Hother].
  - unfold slot. rewrite lookup_insert_eq. simpl. rewrite lookup_insert_eq.
    assert (vacant (t !! lang ≫= (.!! field))) as Hv.
    { destruct (t !! lang) as [entry|]; simpl in *; [|by left].
      destruct (entry !! field) as [v|]; simpl in *; [right|left]; congruence. }
    split; [|split].
    + intros v Hv' Hne. destruct Hv as [Hv|Hv]; congruence.
    + intros v' [= <-]. by right.
    + done.
  - assert (slot (<[lang := <[field := text]> (default ∅ (t !! lang))]> t) l f
            = slot t l f) as Heq.
    { unfold slot. destruct (decide (lang = l)) as [<-|Hne];
        [|by rewrite lookup_insert_ne].
      rewrite lookup_insert_eq. simpl.
      rewrite lookup_insert_ne by (intros <-; by apply Hother).
      by destruct (t !! lang). }
    rewrite Heq. split; [done|]. split; [|done]. intros v' Hv'. by left.
Qed.

Section WithBackend.
Variable backend : Backend.

Lemma complete_field_fills lang field source to_send trans changes n :
  target_slot lang field →
  fills trans (complete_field backend lang field source to_send (trans, changes) n).1.1.
Proof.
  intros Htarget. unfold complete_field, bind, ret.
  destruct (negb _ && _) eqn:Hcond; simpl; [|apply fills_refl].
  apply andb_true_iff in Hcond as [Hvac%negb_true_iff _].
  destruct (translate_text backend to_send lang n) as [[t|] n'];
    simpl; [|apply fills_refl].
  destruct (truthy t) eqn:Ht; simpl; [|apply fills_refl].
  by apply fills_vacant_slot.
Qed.

Lemma complete_lang_fills st sd sl lang trans changes n :
  lang = "en"%string ∨ lang = "ar"%string →
  fills trans (complete_lang backend st sd sl lang (trans, changes) n).1.1.
Proof.
  intros Hlang. unfold complete_lang, bind.
  set (trans0 := match trans !! lang with
                 | None => <[lang := ∅]> trans
                 | Some _ => trans
                 end).
  assert (fills trans trans0) as H0.
  { unfold trans0. destruct (trans !! lang) eqn:Hl;
      [apply fills_refl|by apply fills_new_entry]. }
  assert (∀ field, field = "title"%string ∨ field = "desc"%string
                   ∨ field = "locationName"%string → target_slot lang field)
    as Htarget by (by split).
  pose proof (complete_field_fills lang "title" st st trans0 changes n
                (Htarget "title"%string ltac:(auto))) as H1.
  destruct (complete_field backend lang "title" st st (trans0, changes) n)
    as [[trans1 ch1] n1]. simpl in H1.
  set (desc_short := if (200 <? length sd)%nat then _ else _).
  pose proof (complete_field_fills lang "desc" sd desc_short trans1 ch1 n1
                (Htarget "desc"%string ltac:(auto))) as H2.
  destruct (complete_field backend lang "desc" sd desc_short (trans1, ch1) n1)
    as [[trans2 ch2] n2]. simpl in H2.
  pose proof (complete_field_fills lang "locationName" sl sl trans2 ch2 n2
                (Htarget "locationName"%string ltac:(auto))) as H3.
  exact (fills_trans _ _ _ H0 (fills_trans _ _ _ H1 (fills_trans _ _ _ H2 H3))).
Qed.

Lemma for_each_lang_cons f lang langs st n :
  for_each_lang f (lang :: langs) st n
  = let '(st', n') := f lang st n in for_each_lang f langs st' n'.
Proof. reflexivity. Qed.

Lemma for_each_lang_fills st sd sl langs trans changes n :
  Forall (λ lang, lang = "en"%string ∨ lang = "ar"%string) langs →
  fills trans
    (for_each_lang (complete_lang backend st sd sl) langs (trans, changes) n).1.1.
Proof.
  intros Hlangs. revert trans changes n.
  induction Hlangs as [|lang langs Hlang _ IH]; intros trans changes n.
  - apply fills_refl.
  - rewrite for_each_lang_cons.
    pose proof (complete_lang_fills st sd sl lang trans changes n Hlang) as H1.
    destruct (complete_lang backend st sd sl lang (trans, changes) n)
      as [[trans1 ch1] n1]. simpl in H1.
    exact (fills_trans _ _ _ H1 (IH trans1 ch1 n1)).
Qed.

Lemma complete_translations_result event n :
  ∃ trans, (complete_translations backend event n).1.1
           = set_translations event trans
           ∧ fills (default ∅ (ev_translations event)) trans.
Proof.
  unfold complete_translations.
  destruct (if truthy _ then _ else _) as [[st sd] sl].
  unfold bind, ret.
  pose proof (for_each_lang_fills st sd sl ["en"%string; "ar"%string]
                (default ∅ (ev_translations event)) [] n) as H.
  destruct (for_each_lang _ _ _ n) as [[trans ch] n']. simpl in *.
  exists trans. split; [done|]. apply H.
  apply Forall_cons. split; [by left|].
  apply Forall_cons. split; [by right|]. constructor.
Qed.

End WithBackend.

End TranslateFacts.

(** C9. Translation completion leaves every field of the event but
    [translations] as it was, keeps every translation text that was present
    and not empty, puts new texts only into slots that were missing or
    empty, and leaves every slot but the title, description and location
    name of English and Arabic exactly as it was. *)
Theorem complete_translations_frame
    (backend : Translate.Backend) (event : Event) (n : nat) :
  let event' := (Translate.complete_translations backend event n).1.1 in
  (ev_id event' = ev_id event ∧ ev_type event' = ev_type event
   ∧ ev_country event' = ev_country event
   ∧ ev_location event' = ev_location event
   ∧ ev_time event' = ev_time event ∧ ev_source event' = ev_source event
   ∧ ev_url event' = ev_url event ∧ ev_title event' = ev_title event
   ∧ ev_desc event' = ev_desc event
   ∧ ev_locationName event' = ev_locationName event
   ∧ ev_tweetId event' = ev_tweetId event ∧ ev_isNew event' = ev_isNew event)
  ∧ (∀ lang field v,
       Translate.event_slot event lang field = Some v → v ≠ [] →
       Translate.event_slot event' lang field = Some v)
  ∧ (∀ lang field v',
       Translate.event_slot event' lang field = Some v' →
       Translate.event_slot event lang field = Some v'
       ∨ (Translate.vacant (Translate.event_slot event lang field) ∧ v' ≠ []))
  ∧ (∀ lang field,
       ¬ Translate.target_slot lang field →
       Translate.event_slot event' lang field
       = Translate.event_slot event lang field).
Proof.
  cbv zeta.
  destruct (TranslateFacts.complete_translations_result backend event n)
    as (trans & -> & Hfills).
  split; [by repeat split|].
  unfold Translate.event_slot. simpl.
  split; [|split]; intros lang field; apply Hfills.
Qed.

(** The missing and the empty slots of [sample_event] are filled, in the
    order of the requests; the English title is kept. *)
Example complete_translations_sample :
  let r := (Translate.complete_translations sample_backend sample_event O).1 in
  r.2 = ["en.desc"; "en.locationName"; "ar.title"; "ar.desc";
         "ar.locationName"]%string
  ∧ Translate.event_slot r.1 "en" "title" = Some (u "Tehran air raid")
  ∧ Translate.event_slot r.1 "en" "desc" = Some (u "Ten:德黑兰遭到空袭")
  ∧ Translate.event_slot r.1 "ar" "title" = Some (u "Tar:德黑兰空袭")
  ∧ Translate.event_slot r.1 "zh" "title" = Some (u "德黑兰空袭").
Proof. vm_compute. done. Qed.

(** ** Ticker builder *)

Module TickerFacts.
Import Ticker.

Section WithLower.
Variable lower : pystr → pystr.

Local Abbreviation key := (dedup_key lower).
Local Abbreviation add := (add_ticker_item lower).

Lemma add_ticker_item_spec text author st :
  let r := add text author st in
  (r.1 = true ↔ (key text ∉ seen_keys st) ∧ (10 ≤ length (key text))%nat)
  ∧ seen_keys r.2
    = (if r.1 then ({[ key text ]} ∪ seen_keys st) else seen_keys st)
  ∧ ticker_texts r.2
    = (if r.1
       then let f := format_item text author in
            let t := ticker_texts st in
            mkTickerTexts (ticker_zh t ++ [f]) (ticker_en t ++ [f])
                          (ticker_ar t ++ [f])
       else ticker_texts st).
Proof.
  cbv zeta. unfold add_ticker_item.
  destruct (bool_decide_reflect (key text ∈ seen_keys st)) as [Hin|Hnin]; simpl.
  - split; [|done]. split; [done|]. by intros [? _].
  - destruct (Nat.ltb_spec (length (key text)) 10) as [Hlt|Hge]; simpl.
    + split; [|done]. split; [done|]. intros [_ ?]. lia.
    + done.
Qed.

Lemma run_cons text author cs st :
  run lower ((text, author) :: cs) st
  = let r := add text author st in
    let rs := run lower cs r.2 in (r.1 :: rs.1, rs.2).
Proof.
  change (run lower ((text, author) :: cs) st)
    with (let '(b, st') := add text author st in
          let '(bs, st'') := run lower cs st' in (b :: bs, st'')).
  destruct (add text author st) as [b st']. cbv zeta. simpl.
  by destruct (run lower cs st') as [bs st''].
Qed.

Lemma run_app cs1 cs2 st :
  run lower (cs1 ++ cs2) st
  = let r1 := run lower cs1 st in
    let r2 := run lower cs2 r1.2 in (r1.1 ++ r2.1, r2.2).
Proof.
  revert st. induction cs1 as [|[text author] cs1 IH]; intros st.
  - simpl. by destruct (run lower cs2 st).
  - rewrite <- app_comm_cons, !run_cons. cbv zeta. by rewrite IH.
Qed.

Lemma fold_news_step items st :
  fold_left (news_step lower) items st
  = (run lower (news_candidates lower items) st).2.
Proof.
  revert st. induction items as [|item items IH]; intros st; [done|].
  simpl. unfold news_step at 2, news_candidates. simpl.
  destruct (truthy _ && _); simpl.
  - rewrite IH. fold (news_candidates lower items).
    destruct (add_ticker_item lower (news_text item) None st) as [b st'].
    simpl. by destruct (run lower _ st').
  - apply IH.
Qed.

Lemma fold_tweet_step tweets st :
  fold_left (tweet_step lower) tweets st
  = (run lower (tweet_candidates tweets) st).2.
Proof.
  revert st. induction tweets as [|tweet tweets IH]; intros st; [done|].
  simpl. unfold tweet_step at 2, tweet_candidates. simpl.
  destruct (truthy _); simpl.
  - rewrite IH. fold (tweet_candidates tweets).
    destruct (add_ticker_item lower (tweet_text tweet) _ st) as [b st'].
    simpl. by destruct (run lower _ st').
  - apply IH.
Qed.

(** The state reached by the two loops is the one reached by the calls on
    the candidates. *)
Lemma create_ticker_texts_run news_items tweets :
  create_ticker_texts lower news_items tweets
  = let t := ticker_texts (run lower (candidates lower news_items tweets) init).2 in
    mkTickerTexts (take 15 (ticker_zh t)) (take 15 (ticker_en t))
                  (take 15 (ticker_ar t)).
Proof.
  unfold create_ticker_texts, candidates.
  by rewrite fold_news_step, fold_tweet_step, run_app.
Qed.

Lemma run_spec cs st :
  let r := run lower cs st in
  length r.1 = length cs
  ∧ ticker_texts r.2
    = (let t := ticker_texts st in
       let l := added cs r.1 in
       mkTickerTexts (ticker_zh t ++ l) (ticker_en t ++ l) (ticker_ar t ++ l))
  ∧ ∀ j text author,
      cs !! j = Some (text, author) →
      (r.1 !! j = Some true ↔
       (key text ∉ seen_keys st) ∧ (10 ≤ length (key text))%nat
       ∧ ∀ i text' author', (i < j)%nat → cs !! i = Some (text', author') →
                            key text' ≠ key text).
Proof.
  revert st. induction cs as [|[text0 author0] cs IH]; intros st.
  - simpl. split; [done|]. split; [|done].
    destruct (ticker_texts st). simpl. by rewrite !app_nil_r.
  - rewrite run_cons. cbv zeta.
    destruct (add_ticker_item_spec text0 author0 st) as (Hacc & Hseen & Htick).
    set (r0 := add text0 author0 st) in *.
    destruct (IH r0.2) as (Hlen & Ht & Htrace).
    set (rs := run lower cs r0.2) in *.
    split; [simpl; by rewrite Hlen|]. split.
    + simpl. rewrite Ht, Htick. destruct r0.1; simpl; [|done].
      by rewrite <- !app_assoc.
    + intros [|j] text author Hj; simpl in Hj |- *.
      * injection Hj as -> ->. split.
        -- intros [= Hb]. apply Hacc in Hb as [? ?].
           repeat split; [done|done|]. intros; lia.
        -- intros (H1 & H2 & _). f_equal. by apply Hacc.
      * rewrite (Htrace j text author Hj), Hseen. split.
        -- intros (Hnin & Hlen' & Hprev).
           assert ((key text ∉ seen_keys st) ∧ key text0 ≠ key text) as [Hn0 Hne].
           { destruct r0.1 eqn:Hb.
             - apply not_elem_of_union in Hnin as [Hne Hn0].
               split; [done|]. intros Heq. apply Hne, elem_of_singleton.
               by symmetry.
             - split; [done|]. intros Heq.
               assert (false = true) as Hb'; [|done].
               apply Hacc. by rewrite Heq. }
           split; [done|]. split; [done|].
           intros [|i] text' author' Hi Hci; simpl in Hci.
           ++ by injection Hci as -> ->.
           ++ apply (Hprev i text' author'); [lia|done].
        -- intros (Hnin & Hlen' & Hprev). split; [|split; [done|]].
           ++ destruct r0.1; [|done]. apply not_elem_of_union. split; [|done].
              rewrite elem_of_singleton. intros Heq.
              apply (Hprev O text0 author0); [lia|done|by symmetry].
           ++ intros i text' author' Hi Hci.
              apply (Hprev (S i) text' author'); [lia|done].
Qed.

End WithLower.
End TickerFacts.

(** C8, as stated, fails.  With the key built in the order of the
    specification's words (URLs stripped before the first 40 characters are
    taken) two messages that differ by a leading link have the same key;
    the key of the code is taken from the first 40 characters of the raw
    text, so the keys differ and both messages produce a ticker entry. *)
Lemma ticker_same_spec_key_two_entries :
  let t1 := "https://t.co/abc Strikes reported near Tehran overnight; sirens in Isfahan"%string in
  let t2 := "Strikes reported near Tehran overnight; sirens in Isfahan"%string in
  Ticker.spec_dedup_key ascii_lower (u t1) = Ticker.spec_dedup_key ascii_lower (u t2)
  ∧ Ticker.dedup_key ascii_lower (u t1) = u "strikes reported near t"
  ∧ Ticker.dedup_key ascii_lower (u t2) = u "strikes reported near tehran overnight;"
  ∧ ticker_en (Ticker.create_ticker_texts ascii_lower []
                 [text_tweet "IDF" t1; text_tweet "AJENews" t2])
    = [u "⚡ @IDF: " ++ u t1; u "⚡ @AJENews: " ++ u t2].
Proof. vm_compute. done. Qed.

(** C8 (amended). The deduplication key of a text is built from its first
    40 characters: they are lower-cased and stripped, then URLs are removed
    and white space is collapsed.  Among the candidates, in the order of the
    calls: a candidate whose key equals the key of an earlier one is not
    added; a candidate whose key has fewer than 10 characters is not added;
    every other candidate is added; and each language of the result lists
    the first 15 added texts. *)
Theorem create_ticker_texts_dedup
    (lower : pystr → pystr) (news_items : list NewsItem) (tweets : list Tweet) :
  let cs := Ticker.candidates lower news_items tweets in
  let bs := (Ticker.run lower cs Ticker.init).1 in
  (∀ text, Ticker.dedup_key lower text
           = join (u " ") (split (re_sub_empty (re "https?://\S+")
                                    (strip (lower (take 40 text))))))
  ∧ length bs = length cs
  ∧ (∀ i j text author text' author',
       (i < j)%nat → cs !! i = Some (text, author) →
       cs !! j = Some (text', author') →
       Ticker.dedup_key lower text = Ticker.dedup_key lower text' →
       bs !! j = Some false)
  ∧ (∀ j text author,
       cs !! j = Some (text, author) →
       (length (Ticker.dedup_key lower text) < 10)%nat →
       bs !! j = Some false)
  ∧ (∀ j text author,
       cs !! j = Some (text, author) →
       (10 ≤ length (Ticker.dedup_key lower text))%nat →
       (∀ i text' author', (i < j)%nat → cs !! i = Some (text', author') →
          Ticker.dedup_key lower text' ≠ Ticker.dedup_key lower text) →
       bs !! j = Some true)
  ∧ Ticker.create_ticker_texts lower news_items tweets
    = (let l := take 15 (Ticker.added cs bs) in mkTickerTexts l l l).
Proof.
  intros cs bs.
  destruct (TickerFacts.run_spec lower cs Ticker.init) as (Hlen & Ht & Htrace).
  fold bs in Hlen, Ht, Htrace.
  assert (∀ j text author, cs !! j = Some (text, author) →
            bs !! j ≠ Some true → bs !! j = Some false) as Hfalse.
  { intros j text author Hj Hnot.
    destruct (bs !! j) as [[|]|] eqn:Hb; [done|done|].
    apply lookup_ge_None in Hb. apply lookup_lt_Some in Hj. lia. }
  split; [done|]. split; [done|]. split; [|split; [|split]].
  - intros i j text author text' author' Hij Hi Hj Heq.
    apply (Hfalse j text' author' Hj). intros Hb.
    apply (Htrace j text' author' Hj) in Hb as (_ & _ & Hprev).
    by apply (Hprev i text author).
  - intros j text author Hj Hshort.
    apply (Hfalse j text author Hj). intros Hb.
    apply (Htrace j text author Hj) in Hb as (_ & Hge & _). lia.
  - intros j text author Hj Hge Hprev.
    apply (Htrace j text author Hj). split; [|done].
    apply not_elem_of_empty.
  - rewrite TickerFacts.create_ticker_texts_run. cbv zeta.
    fold cs. rewrite Ht. done.
Qed.

(** ** Entry points *)

(** C2, as stated, fails for twitter-to-events.py: with 101 stored events
    and one fetched message the merge caps the list at 100 events, fewer
    than before, and the run writes it and exits with status 0. *)
Lemma twitter_main_persists_shrunk_store :
  let existing := numbered_store 101 in
  let all_tweets := [id_tweet "900" "2024-02-01T00:00:00Z" "Strike near Tehran"] in
  let merged :=
    merge_events existing
      (TwitterToEvents.convert TwitterToEvents.keep_id_and_time all_tweets) 100 in
  (length merged < length existing)%nat
  ∧ TwitterToEvents.main TwitterToEvents.keep_id_and_time (Some existing)
      all_tweets true
    = mkOutcome 0 (Overwritten merged).
Proof.
  cbv zeta. split; [|reflexivity].
  set (merged := merge_events _ _ _).
  assert (Z.of_nat (length merged) ≤ 100) as Hle.
  { unfold merged, merge_events. rewrite length_slice_to.
    change (100 <? 0) with false. cbv iota. lia. }
  assert (length (numbered_store 101) = 101%nat) as Hlen.
  { unfold numbered_store. by rewrite length_fmap, length_seq. }
  rewrite Hlen. lia.
Qed.

Lemma length_collect_new_events search_tweets clock existing :
  (length existing
   ≤ length (SafeUpdate.collect_new_events search_tweets clock existing ++ existing))%nat.
Proof. rewrite length_app. lia. Qed.

(** C2 (amended). safe-update.py validates before saving: a combined list
    shorter than the existing one ends the run with status 1 and no write,
    and what it writes is the new events followed by all existing ones.
    twitter-to-events.py has no such validation: whenever messages were
    fetched it writes the merged list and exits with status 0, and the
    merged list is only known to hold at least [min(existing, 100)] events;
    without fetched messages it leaves the store as it is. *)
Theorem store_persisted_after_validation
    (search_tweets : pystr → list Tweet) (clock : nat → pystr)
    (parse_tweet_to_event : Tweet → option Event)
    (store : option (list Event)) (all_tweets : list Tweet) (write_ok : bool) :
  (∀ existing_events all_events,
     (length all_events < length existing_events)%nat →
     SafeUpdate.validate_and_save existing_events all_events write_ok
     = mkOutcome 1 Untouched)
  ∧ (∀ events,
       store_effect (SafeUpdate.main search_tweets clock store write_ok)
       = Overwritten events →
       ∃ existing_events,
         store = Some existing_events
         ∧ events = SafeUpdate.collect_new_events search_tweets clock existing_events
                    ++ existing_events
         ∧ (length existing_events ≤ length events)%nat
         ∧ exit_code (SafeUpdate.main search_tweets clock store write_ok) = 0)
  ∧ (all_tweets ≠ [] →
     TwitterToEvents.main parse_tweet_to_event store all_tweets true
     = mkOutcome 0
         (Overwritten
            (merge_events (default [] store)
               (TwitterToEvents.convert parse_tweet_to_event all_tweets) 100)))
  ∧ (all_tweets = [] →
     TwitterToEvents.main parse_tweet_to_event store all_tweets write_ok
     = mkOutcome 0 Untouched)
  ∧ (∀ events,
       store_effect
         (TwitterToEvents.main parse_tweet_to_event store all_tweets write_ok)
       = Overwritten events →
       Z.min (Z.of_nat (length (default [] store))) 100
       ≤ Z.of_nat (length events)).
Proof.
  split; [|split; [|split; [|split]]].
  - intros existing_events all_events Hlt.
    unfold SafeUpdate.validate_and_save.
    by destruct (Nat.ltb_spec (length all_events) (length existing_events));
      [|lia].
  - intros events. unfold SafeUpdate.main.
    destruct store as [existing_events|]; [|done].
    unfold SafeUpdate.validate_and_save.
    pose proof (length_collect_new_events search_tweets clock existing_events).
    destruct (Nat.ltb_spec
                (length (SafeUpdate.collect_new_events search_tweets clock
                           existing_events ++ existing_events))
                (length existing_events)); [lia|].
    destruct write_ok; simpl; [|done]. intros [= <-].
    by exists existing_events.
  - intros Hne. unfold TwitterToEvents.main.
    by destruct all_tweets.
  - by intros ->.
  - intros events. unfold TwitterToEvents.main.
    destruct all_tweets as [|tweet rest]; [done|].
    destruct write_ok; simpl; [|done]. intros [= <-].
    apply length_merge_events_min.
Qed.

(** A run of safe-update.py: the known message is skipped, the new one is
    put in front of the stored events, and the store is rewritten. *)
Example safe_update_sample :
  let existing := [tweet_event "100" "2024-01-01T00:00:00Z"] in
  let run := SafeUpdate.main sample_search (λ _, u "2024-03-01T00:00:00+00:00")
               (Some existing) true in
  exit_code run = 0
  ∧ ∃ new_event,
      store_effect run = Overwritten (new_event :: existing)
      ∧ ev_tweetId new_event = Some (PStr (u "200"))
      ∧ ev_time new_event = Some (u "2024-01-02T00:00:00Z")
      ∧ ev_url new_event = Some (u "https://twitter.com/IDF/status/200").
Proof.
  cbv zeta. split; [vm_compute; reflexivity|].
  eexists. split; [vm_compute; reflexivity|].
  vm_compute. done.
Qed.

(** * Further properties *)

(** ** Merge engine: order, provenance, eviction *)

Lemma slice_to_take {A} (m : Z) (l : list A) : ∃ k, slice_to m l = take k l.
Proof. unfold slice_to. eauto. Qed.

Lemma merge_events_take existing_events new_events max_events :
  ∃ k, merge_events existing_events new_events max_events
       = take k (sort_by_time
                   (existing_events
                    ++ unique_new_events existing_events new_events)).
Proof. unfold merge_events. apply slice_to_take. Qed.

Lemma take_sorted (l : list Event) (k : nat) :
  StronglySorted (ge_key time_key str_ltb) l →
  StronglySorted (ge_key time_key str_ltb) (take k l).
Proof.
  intros Hs. rewrite <- (take_drop k l) in Hs.
  by apply StronglySorted_app_1_l in Hs.
Qed.

(** X1. The merged list is in descending order of time: no event is
    followed, at any distance, by one with a greater time stamp. *)
Theorem merge_events_descending
    (existing_events new_events : list Event) (max_events : Z)
    (i j : nat) (a b : Event) :
  (i < j)%nat →
  merge_events existing_events new_events max_events !! i = Some a →
  merge_events existing_events new_events max_events !! j = Some b →
  str_ltb (time_key a) (time_key b) = false.
Proof.
  intros Hij Ha Hb.
  destruct (merge_events_take existing_events new_events max_events)
    as [k Hk].
  assert (StronglySorted (ge_key time_key str_ltb)
            (merge_events existing_events new_events max_events)) as Hs.
  { rewrite Hk. apply take_sorted, sort_by_time_sorted. }
  rewrite <- (take_drop j (merge_events _ _ _)) in Hs.
  eapply (StronglySorted_app_1_elem_of _ _ _ a b Hs).
  - apply list_elem_of_lookup. exists i. rewrite lookup_take_lt by done. done.
  - apply list_elem_of_lookup. exists O. rewrite lookup_drop.
    by rewrite Nat.add_0_r.
Qed.

Lemma merge_events_descending_witness :
  str_ltb (time_key (tweet_event "200" "2024-01-02T00:00:00Z"))
          (time_key (tweet_event "100" "2024-01-01T00:00:00Z")) = false.
Proof.
  apply (merge_events_descending
           [tweet_event "100" "2024-01-01T00:00:00Z"]
           [tweet_event "200" "2024-01-02T00:00:00Z"] 100 0 1); [lia| |];
    vm_compute; reflexivity.
Defined.

(** X2. Nothing is invented and no known key is re-admitted: an event of
    the merged list is an existing event, or a new event whose identity key
    no existing event has. *)
Theorem merge_events_provenance
    (existing_events new_events : list Event) (max_events : Z) (e : Event) :
  e ∈ merge_events existing_events new_events max_events →
  e ∈ existing_events
  ∨ (e ∈ new_events
     ∧ ∀ x, x ∈ existing_events → identity_key x ≠ identity_key e).
Proof.
  destruct (merge_events_take existing_events new_events max_events)
    as [k ->].
  intros (i & Hi & _)%elem_of_take. apply list_elem_of_lookup_2 in Hi.
  unfold sort_by_time in Hi. rewrite sort_desc_perm, elem_of_app in Hi.
  destruct Hi as [Hi|Hi]; [by left|right].
  apply elem_of_unique_new_events in Hi as [Hnew Hfresh].
  split; [done|]. intros x Hx Heq. apply Hfresh.
  apply elem_of_existing_tweet_ids. by exists x.
Qed.

Lemma merge_events_provenance_witness :
  tweet_event "200" "2024-01-02T00:00:00Z" ∈ [tweet_event "100" "2024-01-01T00:00:00Z"]
  ∨ (tweet_event "200" "2024-01-02T00:00:00Z"
       ∈ [tweet_event "100" "2024-01-01T00:00:00Z";
          tweet_event "200" "2024-01-02T00:00:00Z"]
     ∧ ∀ x, x ∈ [tweet_event "100" "2024-01-01T00:00:00Z"] →
            identity_key x ≠ identity_key (tweet_event "200" "2024-01-02T00:00:00Z")).
Proof.
  apply (merge_events_provenance _ _ 100).
  replace (merge_events _ _ _) with
    [tweet_event "200" "2024-01-02T00:00:00Z";
     tweet_event "100" "2024-01-01T00:00:00Z"] by (vm_compute; reflexivity).
  left.
Defined.

(** X3. When the cap leaves room for every existing and every admitted new
    event, the merge loses nothing: the merged list is a rearrangement of
    the existing events followed by the admitted new ones. *)
Theorem merge_events_no_loss_below_cap
    (existing_events new_events : list Event) (max_events : Z) :
  Z.of_nat (length existing_events
            + length (unique_new_events existing_events new_events))
    ≤ max_events →
  merge_events existing_events new_events max_events
  ≡ₚ existing_events ++ unique_new_events existing_events new_events.
Proof.
  intros Hroom. unfold merge_events, slice_to.
  destruct (Z.ltb_spec max_events 0) as [|_]; [lia|].
  rewrite take_ge by (rewrite length_sort_by_time, length_app; lia).
  apply sort_desc_perm.
Qed.

Lemma merge_events_no_loss_below_cap_witness :
  merge_events [tweet_event "100" "2024-01-01T00:00:00Z"]
    [tweet_event "200" "2024-01-02T00:00:00Z"] 100
  ≡ₚ [tweet_event "100" "2024-01-01T00:00:00Z"]
     ++ unique_new_events [tweet_event "100" "2024-01-01T00:00:00Z"]
          [tweet_event "200" "2024-01-02T00:00:00Z"].
Proof.
  apply merge_events_no_loss_below_cap.
  replace (unique_new_events _ _) with [tweet_event "200" "2024-01-02T00:00:00Z"]
    by (vm_compute; reflexivity).
  simpl. lia.
Defined.

(** X4. Eviction goes by age: with a non-negative cap, an existing or
    admitted new event that is missing from the merged list is not newer
    than any event of the merged list. *)
Theorem merge_events_evicts_oldest
    (existing_events new_events : list Event) (max_events : Z) (e a : Event) :
  0 ≤ max_events →
  e ∈ existing_events ++ unique_new_events existing_events new_events →
  e ∉ merge_events existing_events new_events max_events →
  a ∈ merge_events existing_events new_events max_events →
  str_ltb (time_key a) (time_key e) = false.
Proof.
  intros Hmax He Hout Hin. unfold merge_events, slice_to in Hout, Hin.
  destruct (Z.ltb_spec max_events 0) as [|_]; [lia|].
  set (S1 := sort_by_time _) in *. set (m := Z.to_nat max_events) in *.
  assert (e ∈ drop m S1) as Hdrop.
  { assert (e ∈ S1) as HS by (unfold S1, sort_by_time; by rewrite sort_desc_perm).
    rewrite <- (take_drop m S1), elem_of_app in HS. by destruct HS. }
  eapply take_drop_sorted_ge; [apply sort_by_time_sorted|exact Hin|exact Hdrop].
Qed.

Lemma merge_events_evicts_oldest_witness :
  str_ltb (time_key (tweet_event "2" "2024-01-02T00:00:00Z"))
          (time_key (tweet_event "1" "2024-01-01T00:00:00Z")) = false.
Proof.
  apply (merge_events_evicts_oldest
           [tweet_event "1" "2024-01-01T00:00:00Z";
            tweet_event "2" "2024-01-02T00:00:00Z"] [] 1); [lia| | |].
  - left.
  - replace (merge_events _ _ _) with [tweet_event "2" "2024-01-02T00:00:00Z"]
      by (vm_compute; reflexivity).
    intros H. apply list_elem_of_singleton in H.
    apply (f_equal identity_key) in H. vm_compute in H. discriminate.
  - replace (merge_events _ _ _) with [tweet_event "2" "2024-01-02T00:00:00Z"]
      by (vm_compute; reflexivity).
    left.
Defined.

(** *** Stability *)

Section Stability.
Context {A K : Type} `{EqDecision K} (key : A → K) (ltb : K → K → bool).
Hypothesis ltb_irrefl : ∀ k, ltb k k = false.

Lemma filter_insert_desc t x l :
  filter (λ a, key a = t) (insert_desc key ltb x l)
  = filter (λ a, key a = t) (x :: l).
Proof.
  induction l as [|y l IH]; [done|]. simpl.
  destruct (ltb (key x) (key y)) eqn:Hxy; [|done].
  rewrite filter_cons, IH, !filter_cons.
  destruct (decide (key y = t)) as [Hy|Hy], (decide (key x = t)) as [Hx|Hx];
    try done.
  rewrite Hx, Hy, ltb_irrefl in Hxy. done.
Qed.

Lemma filter_sort_desc t l :
  filter (λ a, key a = t) (sort_desc key ltb l) = filter (λ a, key a = t) l.
Proof.
  induction l as [|x l IH]; [done|]. simpl.
  by rewrite filter_insert_desc, !filter_cons, IH.
Qed.

End Stability.

(** X5. Ties keep their order: among the events of the merged list that
    carry one and the same time stamp, existing events come before new
    ones, and each group is in the order in which it was given. *)
Theorem merge_events_stable
    (existing_events new_events : list Event) (max_events : Z) (t : pystr) :
  filter (λ e, time_key e = t)
         (merge_events existing_events new_events max_events)
  `prefix_of`
  filter (λ e, time_key e = t) existing_events
  ++ filter (λ e, time_key e = t)
            (unique_new_events existing_events new_events).
Proof.
  destruct (merge_events_take existing_events new_events max_events)
    as [k ->].
  rewrite <- filter_app.
  rewrite <- (filter_sort_desc time_key str_ltb str_ltb_irrefl t
                (existing_events ++ _)).
  fold (sort_by_time
          (existing_events ++ unique_new_events existing_events new_events)).
  set (S1 := sort_by_time _).
  rewrite <- (take_drop k S1) at 2. rewrite filter_app.
  by apply prefix_app_r.
Qed.

(** Two existing events and a new one, all of the same minute: the stored
    order is kept and the new event comes last. *)
Example merge_events_stable_sample :
  merge_events
    [tweet_event "1" "2024-01-01T00:00:00Z"; tweet_event "2" "2024-01-01T00:00:00Z"]
    [tweet_event "3" "2024-01-01T00:00:00Z"] 100
  = [tweet_event "1" "2024-01-01T00:00:00Z"; tweet_event "2" "2024-01-01T00:00:00Z";
     tweet_event "3" "2024-01-01T00:00:00Z"].
Proof. vm_compute. reflexivity. Qed.

(** ** Geolocator and country tag *)

Lemma starts_with_spec p s : starts_with p s = true ↔ ∃ after, s = p ++ after.
Proof.
  revert s. induction p as [|a p IH]; intros s; simpl.
  - split; [|done]. intros _. by exists s.
  - destruct s as [|b s].
    + split; [done|]. by intros (after & H).
    + rewrite andb_true_iff, N.eqb_eq, IH. split.
      * intros [-> (after & ->)]. by exists after.
      * intros (after & [= -> ->]). split; [done|]. by exists after.
Qed.

Lemma contains_spec p s : contains p s = true ↔ substring p s.
Proof.
  unfold substring. induction s as [|c s IH].
  - change (contains p []) with (starts_with p [] || false).
    rewrite orb_false_r, starts_with_spec. split.
    + intros (after & H). by exists [], after.
    + intros (before & after & H). symmetry in H.
      apply app_eq_nil in H as [-> H]. by exists after.
  - change (contains p (c :: s)) with (starts_with p (c :: s) || contains p s).
    rewrite orb_true_iff, IH, starts_with_spec. split.
    + intros [(after & H)|(before & after & ->)].
      * by exists [], after.
      * by exists (c :: before), after.
    + intros ([|c' before] & after & H).
      * left. by exists after.
      * right. injection H as <- ->. by exists before, after.
Qed.

Lemma sort_desc_head {A K} (key : A → K) (ltb : K → K → bool) l x r :
  (∀ a b, ltb a b = true → ltb b a = false) →
  (∀ a b c, ltb a b = false → ltb b c = false → ltb a c = false) →
  sort_desc key ltb l = x :: r →
  x ∈ l ∧ ∀ y, y ∈ l → ltb (key x) (key y) = false.
Proof.
  intros Hasym Htrans Hsort.
  pose proof (sort_desc_sorted key ltb Hasym Htrans l) as Hs.
  pose proof (sort_desc_perm key ltb l) as Hp.
  rewrite Hsort in Hs, Hp. apply StronglySorted_cons in Hs as [Hall _].
  split; [rewrite <- Hp; left|].
  intros y Hy. rewrite <- Hp in Hy. apply elem_of_cons in Hy as [->|Hy].
  - destruct (ltb (key x) (key x)) eqn:Hxx; [|done]. by rewrite (Hasym _ _ Hxx) in Hxx.
  - rewrite Forall_forall in Hall. by apply Hall.
Qed.

Lemma sort_desc_nil {A K} (key : A → K) (ltb : K → K → bool) l :
  sort_desc key ltb l = [] → l = [].
Proof.
  intros H. apply Permutation_nil_r. rewrite <- H. by rewrite sort_desc_perm.
Qed.

Lemma nat_ltb_asym (a b : nat) : (a <? b)%nat = true → (b <? a)%nat = false.
Proof. intros H%Nat.ltb_lt. apply Nat.ltb_ge. lia. Qed.

Lemma nat_geb_trans (a b c : nat) :
  (a <? b)%nat = false → (b <? c)%nat = false → (a <? c)%nat = false.
Proof. rewrite !Nat.ltb_ge. lia. Qed.

(** X6. The geolocator returns a place name of the table that occurs in
    the text and is at least as long as every other place name of the
    table that occurs in it; it returns nothing exactly when no place name
    of the table occurs in the text. *)
Theorem extract_location_longest (text : pystr) :
  (extract_location_from_text text = None ↔
   ∀ name, name ∈ DEFAULT_LOCATIONS.*1 → ¬ substring name text)
  ∧ (∀ name,
       extract_location_from_text text = Some name →
       name ∈ DEFAULT_LOCATIONS.*1 ∧ substring name text
       ∧ ∀ other, other ∈ DEFAULT_LOCATIONS.*1 → substring other text →
                  (length other ≤ length name)%nat).
Proof.
  unfold extract_location_from_text.
  set (found := filter (λ n, contains n text = true) (DEFAULT_LOCATIONS.*1)).
  set (locations := (λ n, (n, length n)) <$> found).
  assert (∀ n, n ∈ found ↔ n ∈ DEFAULT_LOCATIONS.*1 ∧ substring n text) as Hfound.
  { intros n. unfold found. by rewrite list_elem_of_filter, contains_spec, (comm and). }
  destruct (sort_desc snd Nat.ltb locations) as [|[name len] r] eqn:Hsort.
  - apply sort_desc_nil in Hsort. apply fmap_nil_inv in Hsort.
    split; [split; [|done]|done].
    intros _ n Hn Hsub. assert (n ∈ found) as Hin by by apply Hfound.
    rewrite Hsort in Hin. by apply elem_of_nil in Hin.
  - apply (sort_desc_head snd Nat.ltb _ _ _ nat_ltb_asym nat_geb_trans) in Hsort
      as [Hin Hmax].
    apply list_elem_of_fmap in Hin as (n & [= -> ->] & Hn).
    split.
    + split; [done|]. intros Hnone. apply Hfound in Hn as [Hn Hsub].
      by destruct (Hnone n).
    + intros name' [= <-]. apply Hfound in Hn as [Hn Hsub].
      split; [done|]. split; [done|]. intros other Ho Hso.
      assert ((other, length other) ∈ locations) as Hin.
      { apply list_elem_of_fmap. exists other. split; [done|]. by apply Hfound. }
      apply Hmax in Hin. simpl in Hin. apply Nat.ltb_ge in Hin. done.
Qed.

(** The example of the specification, and a district inside a region. *)
Example extract_location_samples :
  extract_location_from_text (u "以色列对德黑兰实施空袭") = Some (u "德黑兰")
  ∧ extract_location_from_text (u "加沙北部遭到炮击") = Some (u "加沙北部")
  ∧ extract_location_from_text (u "Strike near Tehran") = None.
Proof. vm_compute. done. Qed.

Lemma first_country_cases lower mapping text_lower :
  first_country lower mapping text_lower = u "iran"
  ∨ ∃ keyword, (keyword, first_country lower mapping text_lower) ∈ mapping
               ∧ substring (lower keyword) text_lower.
Proof.
  induction mapping as [|[k c] mapping IH]; simpl; [by left|].
  destruct (contains (lower k) text_lower) eqn:Hk.
  - right. exists k. split; [left|by apply contains_spec].
  - destruct IH as [IH|(k' & Hin & Hsub)]; [by left|right].
    exists k'. split; [by right|done].
Qed.

Lemma first_country_first lower before keyword country after text_lower :
  (∀ k c, (k, c) ∈ before → ¬ substring (lower k) text_lower) →
  substring (lower keyword) text_lower →
  first_country lower (before ++ (keyword, country) :: after) text_lower = country.
Proof.
  induction before as [|[k c] before IH]; simpl; intros Hbefore Hhere.
  - apply contains_spec in Hhere. by rewrite Hhere.
  - destruct (contains (lower k) text_lower) eqn:Hk.
    + apply contains_spec in Hk. by destruct (Hbefore k c); [left|].
    + apply IH; [|done]. intros k' c' Hin. apply (Hbefore k' c'). by right.
Qed.

Lemma first_country_none lower mapping text_lower :
  (∀ k c, (k, c) ∈ mapping → ¬ substring (lower k) text_lower) →
  first_country lower mapping text_lower = u "iran".
Proof.
  intros Hnone.
  destruct (first_country_cases lower mapping text_lower)
    as [H|(k & Hin & Hsub)]; [done|].
  by destruct (Hnone _ _ Hin).
Qed.

(** X7. The country tag is the country of the first keyword of the mapping
    (the configured one, else the built-in one) whose lower-cased form
    occurs in the lower-cased text; it is ["iran"] when no keyword occurs;
    and it is never anything but ["iran"] or the country of a keyword that
    occurs. *)
Theorem detect_country_first_match
    (lower : pystr → pystr) (text : pystr) (config : Config) :
  let mapping := default DEFAULT_COUNTRY_MAPPING (cfg_countryMapping config) in
  (∀ before keyword country after,
     mapping = before ++ (keyword, country) :: after →
     (∀ k c, (k, c) ∈ before → ¬ substring (lower k) (lower text)) →
     substring (lower keyword) (lower text) →
     detect_country lower text config = country)
  ∧ ((∀ k c, (k, c) ∈ mapping → ¬ substring (lower k) (lower text)) →
     detect_country lower text config = u "iran")
  ∧ (detect_country lower text config = u "iran"
     ∨ ∃ keyword, (keyword, detect_country lower text config) ∈ mapping
                  ∧ substring (lower keyword) (lower text)).
Proof.
  cbv zeta. unfold detect_country. split; [|split].
  - intros before keyword country after -> Hbefore Hhere.
    by apply first_country_first.
  - apply first_country_none.
  - apply first_country_cases.
Qed.

Example detect_country_samples :
  detect_country ascii_lower (u "Explosions in GAZA and Tehran, Iran") no_override
    = u "iran"
  ∧ detect_country ascii_lower (u "Rockets over Gaza tonight") no_override
    = u "israel"
  ∧ detect_country ascii_lower (u "Turkey closes its airspace") no_override
    = u "iran"
  ∧ detect_country ascii_lower (u "Ankara talks")
      (mkConfig None None (Some [(u "Ankara", u "turkey")]))
    = u "turkey".
Proof. vm_compute. done. Qed.

Lemma extract_location_in_table text name :
  extract_location_from_text text = Some name → name ∈ DEFAULT_LOCATIONS.*1.
Proof.
  unfold extract_location_from_text.
  destruct (sort_desc snd Nat.ltb _) as [|[n len] r] eqn:Hsort; [done|].
  intros [= ->].
  assert ((name, len) ∈ sort_desc snd Nat.ltb
            ((λ n, (n, length n))
               <$> filter (λ n, contains n text = true) (DEFAULT_LOCATIONS.*1)))
    as Hin by (rewrite Hsort; left).
  rewrite sort_desc_perm in Hin.
  apply list_elem_of_fmap in Hin as (n & [= -> ->] & Hn).
  by apply list_elem_of_filter in Hn as [_ Hn].
Qed.

Lemma location_entries_ok name :
  name ∈ DEFAULT_LOCATIONS.*1 → location_entry_ok name = true.
Proof.
  intros Hin%list_elem_of_In. revert name Hin. apply forallb_forall.
  vm_compute. reflexivity.
Qed.

Lemma country_entries_ok keyword country :
  (keyword, country) ∈ DEFAULT_COUNTRY_MAPPING → country_entry_ok country = true.
Proof.
  intros Hin%list_elem_of_In.
  assert (forallb (λ p, country_entry_ok p.2) DEFAULT_COUNTRY_MAPPING = true) as H
    by (vm_compute; reflexivity).
  rewrite forallb_forall in H. by apply (H (keyword, country)).
Qed.

Lemma get_coordinates_of_place name country c :
  truthy name = true → dict_get name DEFAULT_LOCATIONS = Some c →
  get_coordinates (Some name) country = c.
Proof.
  intros Ht Hc. unfold get_coordinates.
  change (default [] (Some name)) with name. by rewrite Ht, Hc.
Qed.

Lemma get_coordinates_of_country country c :
  dict_get country COUNTRY_COORDINATES = Some c →
  get_coordinates None country = c.
Proof.
  intros Hc. unfold get_coordinates.
  change (truthy (default [] None)) with false. cbv iota. by rewrite Hc.
Qed.

(** X8. With the built-in country mapping the country tag is one of
    israel, iran and usa, and the coordinates of an event always come from
    a table: those of the extracted place name when there is one, whatever
    the country, and those of the country tag otherwise.  The last-resort
    pair (28.0, 43.0) is never returned. *)
Theorem coordinates_come_from_tables (lower : pystr → pystr) (text : pystr) :
  let country := detect_country lower text no_override in
  let location_name := extract_location_from_text text in
  (country = u "israel" ∨ country = u "iran" ∨ country = u "usa")
  ∧ (∀ name any_country,
       location_name = Some name →
       dict_get name DEFAULT_LOCATIONS
       = Some (get_coordinates location_name any_country))
  ∧ (location_name = None →
     dict_get country COUNTRY_COORDINATES
     = Some (get_coordinates location_name country))
  ∧ get_coordinates location_name country ≠ (2800, 4300).
Proof.
  cbv zeta.
  assert (country_entry_ok (detect_country lower text no_override) = true) as Hc.
  { change (detect_country lower text no_override)
      with (first_country lower DEFAULT_COUNTRY_MAPPING (lower text)).
    destruct (first_country_cases lower DEFAULT_COUNTRY_MAPPING (lower text))
      as [->|(k & Hin & _)]; [vm_compute; reflexivity|].
    by eapply country_entries_ok. }
  set (country := detect_country lower text no_override) in *.
  unfold country_entry_ok in Hc. apply andb_true_iff in Hc as [Hset Hentry].
  destruct (dict_get country COUNTRY_COORDINATES) as [cc|] eqn:Hcc; [|done].
  apply negb_true_iff, bool_decide_eq_false in Hentry.
  assert (∀ name any_country,
            extract_location_from_text text = Some name →
            dict_get name DEFAULT_LOCATIONS
            = Some (get_coordinates (Some name) any_country)
            ∧ get_coordinates (Some name) any_country ≠ (2800, 4300)) as Hloc.
  { intros name any_country Hname.
    pose proof (location_entries_ok name (extract_location_in_table _ _ Hname))
      as Hok.
    unfold location_entry_ok in Hok. apply andb_true_iff in Hok as [Ht Hl].
    destruct (dict_get name DEFAULT_LOCATIONS) as [c|] eqn:Hc; [|done].
    rewrite (get_coordinates_of_place name any_country c Ht Hc).
    split; [done|]. by apply negb_true_iff, bool_decide_eq_false in Hl. }
  split; [|split; [|split]].
  - repeat (apply orb_true_iff in Hset as [Hset|Hset]);
      apply bool_decide_eq_true in Hset; auto.
  - intros name any_country Hname. rewrite Hname. by apply Hloc.
  - intros ->. by rewrite (get_coordinates_of_country country cc Hcc).
  - destruct (extract_location_from_text text) as [name|] eqn:Hname.
    + by apply Hloc.
    + by rewrite (get_coordinates_of_country country cc Hcc).
Qed.

(** ** Title: bounds *)

Lemma length_lstrip_le s : (length (lstrip s) ≤ length s)%nat.
Proof.
  induction s as [|c s IH]; simpl; [done|].
  destruct (isspace c); simpl; lia.
Qed.

Lemma length_strip_le s : (length (strip s) ≤ length s)%nat.
Proof.
  unfold strip, rstrip. rewrite length_reverse.
  etrans; [apply length_lstrip_le|]. rewrite length_reverse.
  apply length_lstrip_le.
Qed.

(** X9. A title has at most 52 characters (a cut of at most 49 characters
    and the three dots), and the title of a body of at most 50 characters
    is the stripped body. *)
Theorem title_length_bound (text : pystr) :
  (length (parse_tweet_to_event_title text) ≤ 52)%nat
  ∧ ((length text ≤ 50)%nat → parse_tweet_to_event_title text = strip text).
Proof.
  unfold parse_tweet_to_event_title.
  set (title := strip (take 50 text)).
  assert (length title ≤ 50)%nat as Hlen.
  { unfold title. etrans; [apply length_strip_le|]. rewrite length_take. lia. }
  split.
  - destruct (50 <? length text)%nat; [|lia].
    destruct (30 <? rfind 32%N title); [|lia].
    destruct (rfind_spec 32%N title) as [[Hr _]|(k & Hr & Hk & _)].
    + rewrite Hr. simpl. lia.
    + rewrite Hr, Nat2Z.id, length_app, length_take.
      apply lookup_lt_Some in Hk.
      change (length (u "...")) with 3%nat. lia.
  - intros Hshort. destruct (Nat.ltb_spec 50 (length text)); [lia|].
    unfold title. by rewrite take_ge.
Qed.

(** ** News deduplication *)

Module NewsFacts.
Import News.
Section WithLower.
Variable lower : pystr → pystr.

Local Abbreviation key := (news_key lower).

Lemma seed_spec_from (existing : list NewsItem) (seen : gset pystr) (k : pystr) :
  k ∈ fold_left (λ (seen : gset pystr) item, {[ key item ]} ∪ seen) existing seen
  ↔ k ∈ seen ∨ ∃ item, item ∈ existing ∧ key item = k.
Proof.
  revert seen. induction existing as [|x existing IH]; intros seen; simpl.
  - split; [by left|]. intros [H|(item & H & _)]; [done|].
    by apply elem_of_nil in H.
  - rewrite IH, elem_of_union, elem_of_singleton. split.
    + intros [[->|H]|(item & Hin & Hk)].
      * right. exists x. split; [left|done].
      * by left.
      * right. exists item. split; [by right|done].
    + intros [H|(item & Hin & Hk)]; [left; by right|].
      apply elem_of_cons in Hin as [->|Hin]; [left; by left|].
      right. by exists item.
Qed.

Lemma seed_spec existing k :
  k ∈ seed lower existing ↔ ∃ item, item ∈ existing ∧ key item = k.
Proof.
  unfold seed. rewrite seed_spec_from. split; [|by right].
  intros [H|H]; [|done]. by apply not_elem_of_empty in H.
Qed.

Lemma scan_sublist seen items : scan lower seen items `sublist_of` items.
Proof.
  revert seen. induction items as [|x items IH]; intros seen; simpl; [done|].
  destruct (bool_decide (key x ∈ seen)).
  - by apply sublist_cons.
  - by apply sublist_skip.
Qed.

Lemma scan_keys_fresh seen items item :
  item ∈ scan lower seen items → key item ∉ seen.
Proof.
  revert seen. induction items as [|x items IH]; intros seen; simpl.
  - by intros H%elem_of_nil.
  - destruct (bool_decide_reflect (key x ∈ seen)) as [Hin|Hnin]; [apply IH|].
    intros [->|H]%elem_of_cons; [done|].
    apply IH in H. set_solver.
Qed.

Lemma scan_keys_nodup seen items : NoDup (key <$> scan lower seen items).
Proof.
  revert seen. induction items as [|x items IH]; intros seen; simpl.
  - constructor.
  - destruct (bool_decide (key x ∈ seen)); [apply IH|].
    rewrite fmap_cons. constructor; [|apply IH].
    intros (item & Hk & Hin)%list_elem_of_fmap.
    apply scan_keys_fresh in Hin. rewrite <- Hk in Hin. set_solver.
Qed.

Lemma scan_covers seen items item :
  item ∈ items →
  key item ∈ seen ∨ key item ∈ key <$> scan lower seen items.
Proof.
  revert seen. induction items as [|x items IH]; intros seen; simpl.
  - by intros H%elem_of_nil.
  - intros [->|Hin]%elem_of_cons.
    + destruct (bool_decide_reflect (key x ∈ seen)); [by left|].
      right. rewrite fmap_cons. left.
    + destruct (bool_decide_reflect (key x ∈ seen)); [by apply IH|].
      destruct (IH ({[ key x ]} ∪ seen) Hin) as [H|H].
      * apply elem_of_union in H as [->%elem_of_singleton|H]; [|by left].
        right. rewrite fmap_cons. left.
      * right. rewrite fmap_cons. by right.
Qed.

Lemma scan_idempotent seen items :
  scan lower seen (scan lower seen items) = scan lower seen items.
Proof.
  revert seen. induction items as [|x items IH]; intros seen; simpl; [done|].
  destruct (bool_decide (key x ∈ seen)) eqn:Hx; [apply IH|].
  simpl. rewrite Hx. by rewrite IH.
Qed.

End WithLower.
End NewsFacts.

(** X10. The deduplicated news are items of the batch in their order; no
    two of them have the same key (the lower-cased first 50 characters of
    the text, or of the title when there is no text); none has the key of
    an existing item; and every item of the batch has its key among those
    of the existing items or of the result. *)
Theorem deduplicate_news_unique
    (lower : pystr → pystr) (news_items existing_news : list NewsItem) :
  let unique_items := News.deduplicate_news lower news_items existing_news in
  unique_items `sublist_of` news_items
  ∧ NoDup (News.news_key lower <$> unique_items)
  ∧ (∀ item old, item ∈ unique_items → old ∈ existing_news →
       News.news_key lower item ≠ News.news_key lower old)
  ∧ (∀ item, item ∈ news_items →
       News.news_key lower item ∈ News.news_key lower <$> existing_news
       ∨ News.news_key lower item ∈ News.news_key lower <$> unique_items).
Proof.
  cbv zeta. unfold News.deduplicate_news. split; [|split; [|split]].
  - apply NewsFacts.scan_sublist.
  - apply NewsFacts.scan_keys_nodup.
  - intros item old Hitem Hold Heq.
    apply NewsFacts.scan_keys_fresh in Hitem. apply Hitem.
    apply NewsFacts.seed_spec. by exists old.
  - intros item Hitem.
    destruct (NewsFacts.scan_covers lower (News.seed lower existing_news)
                news_items item Hitem) as [H|H]; [left|by right].
    apply NewsFacts.seed_spec in H as (old & Hold & Hk).
    apply list_elem_of_fmap. by exists old.
Qed.

(** X11. Deduplicating the result again, against the same existing news,
    changes nothing. *)
Theorem deduplicate_news_idempotent
    (lower : pystr → pystr) (news_items existing_news : list NewsItem) :
  News.deduplicate_news lower
    (News.deduplicate_news lower news_items existing_news) existing_news
  = News.deduplicate_news lower news_items existing_news.
Proof. apply NewsFacts.scan_idempotent. Qed.

Example deduplicate_news_sample :
  News.deduplicate_news ascii_lower
    [headline "Iran closes airspace"; headline "IRAN CLOSES AIRSPACE";
     headline "Gaza ceasefire talks resume"; headline "Red Sea convoy attacked"]
    [headline "gaza ceasefire talks resume"]
  = [headline "Iran closes airspace"; headline "Red Sea convoy attacked"].
Proof. vm_compute. reflexivity. Qed.

(** ** Ticker builder: cap and shape *)

Lemma length_added cs bs : (length (Ticker.added cs bs) ≤ length cs)%nat.
Proof.
  revert bs. induction cs as [|[text author] cs IH]; intros [|[|] bs]; simpl;
    try lia; specialize (IH bs); lia.
Qed.

Lemma format_item_flash text author :
  ∃ rest, Ticker.format_item text author = u "⚡ " ++ rest.
Proof.
  destruct author as [[|c a]|]; simpl.
  - by eexists.
  - by exists (u "@" ++ (c :: a) ++ u ": " ++ take 80 text).
  - by eexists.
Qed.

Lemma added_flash cs bs entry :
  entry ∈ Ticker.added cs bs → ∃ rest, entry = u "⚡ " ++ rest.
Proof.
  revert bs. induction cs as [|[text author] cs IH]; intros [|b bs]; simpl;
    try (by intros H%elem_of_nil).
  destruct b; [|apply IH].
  intros [->|H]%elem_of_cons; [apply format_item_flash|by eapply IH].
Qed.

(** X12. The three language lists of the ticker are one and the same list;
    it has at most 15 entries and no more entries than there are candidate
    texts, and every entry starts with the flash sign and a space. *)
Theorem create_ticker_texts_capped
    (lower : pystr → pystr) (news_items : list NewsItem) (tweets : list Tweet) :
  let r := Ticker.create_ticker_texts lower news_items tweets in
  ticker_en r = ticker_zh r ∧ ticker_ar r = ticker_zh r
  ∧ (length (ticker_zh r) ≤ 15)%nat
  ∧ (length (ticker_zh r)
     ≤ length (Ticker.candidates lower news_items tweets))%nat
  ∧ ∀ entry, entry ∈ ticker_zh r → ∃ rest, entry = u "⚡ " ++ rest.
Proof.
  cbv zeta. rewrite TickerFacts.create_ticker_texts_run. cbv zeta.
  set (cs := Ticker.candidates lower news_items tweets).
  destruct (TickerFacts.run_spec lower cs Ticker.init) as (_ & Ht & _).
  rewrite Ht. simpl.
  pose proof (length_added cs (Ticker.run lower cs Ticker.init).1).
  repeat split; try (rewrite length_take; lia).
  intros entry (i & Hi & _)%elem_of_take.
  apply list_elem_of_lookup_2 in Hi. by eapply added_flash.
Qed.

(** ** Templates *)

Module TplFacts.
Import Tpl.

(** [templates] extended by the templates of the events [picked]. *)
Definition extend (templates : Templates) (picked : list Event) : Templates :=
  {| tpl_zh := tpl_zh templates ++ ((λ e, make_template e "zh") <$> picked);
     tpl_en := tpl_en templates ++ ((λ e, make_template e "en") <$> picked);
     tpl_ar := tpl_ar templates ++ ((λ e, make_template e "ar") <$> picked) |}.

Lemma extend_nil templates : extend templates [] = templates.
Proof. destruct templates. unfold extend. simpl. by rewrite !app_nil_r. Qed.

Lemma extend_cons templates e picked :
  extend (append_event templates e) picked = extend templates (e :: picked).
Proof. unfold extend, append_event. simpl. by rewrite <- !app_assoc. Qed.

Lemma length_append_event templates e :
  length (tpl_zh (append_event templates e)) = S (length (tpl_zh templates)).
Proof. unfold append_event. simpl. rewrite length_app. simpl. lia. Qed.

Lemma loop_cons seen templates x events :
  loop seen templates (x :: events)
  = if bool_decide (combination x ∈ seen) then loop seen templates events
    else if (10 <=? S (length (tpl_zh templates)))%nat
         then append_event templates x
         else loop ({[ combination x ]} ∪ seen) (append_event templates x) events.
Proof. cbn [loop]. by rewrite length_append_event. Qed.

Lemma loop_spec seen templates events :
  ∃ picked,
    loop seen templates events = extend templates picked
    ∧ picked `sublist_of` events
    ∧ NoDup (combination <$> picked)
    ∧ (∀ e, e ∈ picked → combination e ∉ seen)
    ∧ (∀ e, e ∈ picked →
         ∃ before after, events = before ++ e :: after
                         ∧ combination e ∉ combination <$> before)
    ∧ ((length (tpl_zh templates) < 10)%nat →
       (length (tpl_zh templates) + length picked ≤ 10)%nat)
    ∧ ((length (tpl_zh templates) + length picked < 10)%nat →
       ∀ e, e ∈ events →
         combination e ∈ seen ∨ combination e ∈ combination <$> picked).
Proof.
  revert seen templates.
  induction events as [|x events IH]; intros seen templates.
  - exists []. rewrite extend_nil. simpl. repeat split; try done.
    + constructor.
    + by intros e H%elem_of_nil.
    + by intros e H%elem_of_nil.
    + lia.
    + by intros _ e H%elem_of_nil.
  - rewrite loop_cons.
    destruct (bool_decide_reflect (combination x ∈ seen)) as [Hseen|Hnew].
    + destruct (IH seen templates)
        as (picked & Heq & Hsub & Hnd & Hfresh & Hfirst & Hcap & Hcov).
      exists picked. repeat split; try done.
      * by apply sublist_cons.
      * intros e He. destruct (Hfirst e He) as (before & after & -> & Hb).
        exists (x :: before), after. split; [done|].
        rewrite fmap_cons. intros [Hx|Hx]%elem_of_cons; [|done].
        apply (Hfresh e He). by rewrite Hx.
      * intros Hlt e [->|He]%elem_of_cons; [by left|by apply Hcov].
    + destruct (Nat.leb_spec 10 (S (length (tpl_zh templates))))
        as [Hfull|Hroom].
      * exists [x]. rewrite <- extend_cons, extend_nil.
        repeat split; try done.
        -- apply sublist_skip, sublist_nil_l.
        -- apply NoDup_singleton.
        -- by intros e ->%list_elem_of_singleton.
        -- intros e ->%list_elem_of_singleton. exists [], events.
           split; [done|]. apply not_elem_of_nil.
        -- simpl. lia.
        -- simpl. lia.
      * destruct (IH ({[ combination x ]} ∪ seen) (append_event templates x))
          as (picked & Heq & Hsub & Hnd & Hfresh & Hfirst & Hcap & Hcov).
        rewrite length_append_event in Hcap, Hcov.
        exists (x :: picked). rewrite Heq, extend_cons.
        repeat split; try done.
        -- by apply sublist_skip.
        -- rewrite fmap_cons. constructor; [|done].
           intros (e & Hk & He)%list_elem_of_fmap.
           apply (Hfresh e He). rewrite <- Hk. set_solver.
        -- intros e [->|He]%elem_of_cons; [done|].
           intros Hin. apply (Hfresh e He). set_solver.
        -- intros e [->|He]%elem_of_cons.
           ++ exists [], events. split; [done|]. apply not_elem_of_nil.
           ++ destruct (Hfirst e He) as (before & after & -> & Hb).
              exists (x :: before), after. split; [done|].
              rewrite fmap_cons. intros [Hx|Hx]%elem_of_cons; [|done].
              apply (Hfresh e He). rewrite Hx. set_solver.
        -- intros _. simpl. lia.
        -- intros Hlt e [->|He]%elem_of_cons.
           ++ right. rewrite fmap_cons. left.
           ++ simpl in Hlt.
              destruct (Hcov ltac:(lia) e He) as [H|H].
              ** apply elem_of_union in H as [->%elem_of_singleton|H];
                   [|by left].
                 right. rewrite fmap_cons. left.
              ** right. rewrite fmap_cons. by right.
Qed.

End TplFacts.

(** X13. The templates are built from a selection of the events, the same
    for the three languages and in the order of the events: at most ten
    events, no two of them with the same (type, country) pair, each one the
    first event of the list with its pair; when fewer than ten are selected
    every pair that occurs among the events is represented. *)
Theorem create_templates_selection (events : list Event) :
  ∃ picked,
    Tpl.create_templates events
    = mkTemplates ((λ e, Tpl.make_template e "zh") <$> picked)
                  ((λ e, Tpl.make_template e "en") <$> picked)
                  ((λ e, Tpl.make_template e "ar") <$> picked)
    ∧ picked `sublist_of` events
    ∧ (length picked ≤ 10)%nat
    ∧ NoDup (Tpl.combination <$> picked)
    ∧ (∀ e, e ∈ picked →
         ∃ before after, events = before ++ e :: after
                         ∧ Tpl.combination e ∉ Tpl.combination <$> before)
    ∧ ((length picked < 10)%nat →
       ∀ e, e ∈ events → Tpl.combination e ∈ Tpl.combination <$> picked).
Proof.
  destruct (TplFacts.loop_spec ∅ (mkTemplates [] [] []) events)
    as (picked & Heq & Hsub & Hnd & _ & Hfirst & Hcap & Hcov).
  exists picked. simpl in Hcap, Hcov.
  split; [done|]. split; [done|]. split; [apply Hcap; lia|].
  split; [done|]. split; [done|].
  intros Hlt e He. destruct (Hcov Hlt e He) as [H|H]; [|done].
  by apply not_elem_of_empty in H.
Qed.

Example create_templates_sample :
  let r := Tpl.create_templates
             [typed_event "strike" "iran" "德黑兰空袭";
              typed_event "strike" "iran" "伊斯法罕空袭";
              typed_event "intel" "israel" "卫星图像"] in
  (tp_title <$> tpl_en r) = [u "德黑兰空袭"; u "卫星图像"]
  ∧ (tp_type <$> tpl_zh r) = [Some (u "strike"); Some (u "intel")]
  ∧ length (tpl_ar r) = 2%nat.
Proof. vm_compute. done. Qed.




(** ** safe-update.py: identifiers stay unique *)

Module SafeUpdateFacts.
Import SafeUpdate.

Section WithEnvironment.
Variable search_tweets : pystr → list Tweet.
Variable clock : nat → pystr.

(** What the loops keep true of [new_events] and [existing_tweet_ids],
    [stored] being the identifiers of the store. *)
Definition inv (stored : gset pyval) (st : list Event * gset pyval) : Prop :=
  (∀ k, k ∈ st.2 ↔ k ∈ stored ∨ k ∈ tweetId_of <$> st.1)
  ∧ NoDup (tweetId_of <$> st.1)
  ∧ ∀ e, e ∈ st.1 →
      (tweetId_of e ∉ stored) ∧ pyval_truthy (tweetId_of e) = true
      ∧ ev_id e = ev_tweetId e.

Lemma tweet_step_inv stored st tweet :
  inv stored st → inv stored (tweet_step clock st tweet).
Proof.
  destruct st as [new ids]. intros (Hids & Hnd & Hnew). unfold tweet_step.
  set (tweet_id := default PNone (tw_id tweet)).
  destruct (pyval_truthy tweet_id) eqn:Htruthy; simpl; [|done].
  destruct (bool_decide_reflect (tweet_id ∈ ids)) as [Hin|Hnin]; [done|].
  simpl in *.
  set (event := make_event tweet tweet_id (clock (length new))).
  assert (tweetId_of event = tweet_id) as Hkey by done.
  assert ((tweet_id ∉ stored) ∧ tweet_id ∉ tweetId_of <$> new) as [Hns Hnn].
  { split; intros H; apply Hnin, Hids; auto. }
  split; [|split]; cbn [fst snd].
  - intros k. rewrite elem_of_union, elem_of_singleton, Hids, fmap_app,
      elem_of_app. simpl. rewrite list_elem_of_singleton, Hkey. tauto.
  - rewrite fmap_app. apply NoDup_app. split; [done|]. split.
    + intros k Hk. simpl. rewrite list_elem_of_singleton, Hkey.
      intros ->. done.
    + apply NoDup_singleton.
  - intros e [He| ->%list_elem_of_singleton]%elem_of_app; [by apply Hnew|].
    by rewrite Hkey.
Qed.

Lemma keyword_step_inv stored st keyword :
  inv stored st → inv stored (keyword_step search_tweets clock st keyword).
Proof.
  unfold keyword_step. generalize (search_tweets keyword). intros tweets.
  revert st. induction tweets as [|tweet tweets IH]; intros st Hinv; [done|].
  simpl. by apply IH, tweet_step_inv.
Qed.

Lemma keywords_inv stored keywords st :
  inv stored st →
  inv stored (fold_left (keyword_step search_tweets clock) keywords st).
Proof.
  revert st. induction keywords as [|keyword keywords IH]; intros st Hinv;
    [done|].
  simpl. by apply IH, keyword_step_inv.
Qed.

Lemma collect_inv existing_events :
  inv (stored_tweet_ids existing_events)
      (fold_left (keyword_step search_tweets clock) KEYWORDS
                 ([], stored_tweet_ids existing_events)).
Proof.
  apply keywords_inv. split; [|split]; simpl.
  - intros k. split; [by left|]. intros [H|H]; [done|].
    by apply elem_of_nil in H.
  - constructor.
  - by intros e H%elem_of_nil.
Qed.

End WithEnvironment.
End SafeUpdateFacts.

(** X15. The events that safe-update.py adds have a non-empty identifier,
    stored as both [id] and [tweetId]; no two of them share it and none has
    the [tweetId] of a stored event, although the same message may be found
    by several searches.  So if the stored [tweetId]s are pairwise distinct,
    those of the written list are too. *)
Theorem safe_update_new_events_unique
    (search_tweets : pystr → list Tweet) (clock : nat → pystr)
    (existing_events : list Event) :
  let new_events :=
    SafeUpdate.collect_new_events search_tweets clock existing_events in
  NoDup (tweetId_of <$> new_events)
  ∧ (∀ e, e ∈ new_events →
       pyval_truthy (tweetId_of e) = true ∧ ev_id e = ev_tweetId e
       ∧ ∀ old, old ∈ existing_events → tweetId_of old ≠ tweetId_of e)
  ∧ (NoDup (tweetId_of <$> existing_events) →
     NoDup (tweetId_of <$> (new_events ++ existing_events))).
Proof.
  cbv zeta. unfold SafeUpdate.collect_new_events.
  destruct (SafeUpdateFacts.collect_inv search_tweets clock existing_events)
    as (_ & Hnd & Hnew).
  set (st := fold_left _ _ _) in *.
  assert (∀ e old, e ∈ st.1 → old ∈ existing_events →
                   tweetId_of old ≠ tweetId_of e) as Hfresh.
  { intros e old He Hold Heq. destruct (Hnew e He) as (Hns & _).
    apply Hns. unfold SafeUpdate.stored_tweet_ids.
    apply elem_of_list_to_set, list_elem_of_fmap. by exists old. }
  split; [done|]. split.
  - intros e He. destruct (Hnew e He) as (_ & Ht & Hid). eauto.
  - intros Hold. rewrite fmap_app. apply NoDup_app. split; [done|].
    split; [|done].
    intros k (e & -> & He)%list_elem_of_fmap (old & Hk & Ho)%list_elem_of_fmap.
    by apply (Hfresh e old).
Qed.

(** The same message returned by two searches is added once. *)
Example safe_update_repeated_message :
  (ev_tweetId <$>
     SafeUpdate.collect_new_events
       (λ _, [id_tweet "200" "2024-01-02T00:00:00Z" "Strike near Tehran"])
       (λ _, u "2024-03-01T00:00:00+00:00")
       [tweet_event "100" "2024-01-01T00:00:00Z"])
  = [Some (PStr (u "200"))].
Proof. vm_compute. reflexivity. Qed.

(** ** Translation completion: requests and fixed points *)

Module CompletionFacts.
Import Translate.

Section WithBackend.
Variable backend : Backend.

Lemma complete_field_skip lang field source to_send trans changes n :
  truthy (default [] (default ∅ (trans !! lang) !! field)) = true →
  complete_field backend lang field source to_send (trans, changes) n
  = ((trans, changes), n).
Proof. intros Hfull. unfold complete_field. by rewrite Hfull. Qed.

Lemma translate_text_requests text lang n :
  (translate_text backend text lang n).2 = S n
  ∨ translate_text backend text lang n = (None, n).
Proof. unfold translate_text. destruct (lang_map lang); simpl; auto. Qed.

(** One block sends at most one request and records at most one change,
    and a change only if a request was sent. *)
Lemma complete_field_requests lang field source to_send trans changes n :
  let r := complete_field backend lang field source to_send (trans, changes) n in
  (n ≤ r.2 ≤ S n)%nat
  ∧ (length changes ≤ length r.1.2)%nat
  ∧ (length r.1.2 + n ≤ length changes + r.2)%nat.
Proof.
  cbv zeta. unfold complete_field, bind, ret.
  destruct (negb _ && _); [|simpl; lia].
  destruct (translate_text_requests to_send lang n) as [Hreq|Hreq].
  - destruct (translate_text backend to_send lang n) as [[t|] n'];
      simpl in Hreq; subst n'; [|simpl; lia].
    destruct (truthy t); simpl; [|lia].
    rewrite length_app. simpl. lia.
  - rewrite Hreq. simpl. lia.
Qed.

Lemma complete_lang_requests st sd sl lang trans changes n :
  let r := complete_lang backend st sd sl lang (trans, changes) n in
  (n ≤ r.2 ≤ n + 3)%nat
  ∧ (length changes ≤ length r.1.2)%nat
  ∧ (length r.1.2 + n ≤ length changes + r.2)%nat.
Proof.
  cbv zeta. unfold complete_lang, bind.
  set (trans0 := match trans !! lang with
                 | None => <[lang := ∅]> trans
                 | Some _ => trans
                 end).
  pose proof (complete_field_requests lang "title" st st trans0 changes n) as H1.
  destruct (complete_field backend lang "title" st st (trans0, changes) n)
    as [[trans1 ch1] n1]. simpl in H1.
  set (desc_short := if (200 <? length sd)%nat then _ else _).
  pose proof (complete_field_requests lang "desc" sd desc_short trans1 ch1 n1) as H2.
  destruct (complete_field backend lang "desc" sd desc_short (trans1, ch1) n1)
    as [[trans2 ch2] n2]. simpl in H2.
  pose proof (complete_field_requests lang "locationName" sl sl trans2 ch2 n2) as H3.
  destruct (complete_field backend lang "locationName" sl sl (trans2, ch2) n2)
    as [[trans3 ch3] n3]. simpl in H3 |- *. lia.
Qed.

Lemma complete_lang_skip st sd sl lang trans changes n :
  (∀ field, field = "title"%string ∨ field = "desc"%string
            ∨ field = "locationName"%string →
     ∃ v, slot trans lang field = Some v ∧ v ≠ []) →
  complete_lang backend st sd sl lang (trans, changes) n = ((trans, changes), n).
Proof.
  intros Hfull.
  assert (∀ field, field = "title"%string ∨ field = "desc"%string
                   ∨ field = "locationName"%string →
            truthy (default [] (default ∅ (trans !! lang) !! field)) = true)
    as Htruthy.
  { intros field Hf. destruct (Hfull field Hf) as (v & Hv & Hne).
    unfold slot in Hv. destruct (trans !! lang) as [entry|]; [|done].
    simpl in *. rewrite Hv. simpl. by destruct v. }
  destruct (Hfull "title"%string ltac:(auto)) as (v & Hv & _).
  unfold slot in Hv. destruct (trans !! lang) as [entry|] eqn:Hl; [|done].
  unfold complete_lang, bind. rewrite Hl.
  rewrite complete_field_skip by (rewrite Hl; apply Htruthy; auto).
  rewrite complete_field_skip by (rewrite Hl; apply Htruthy; auto).
  rewrite complete_field_skip by (rewrite Hl; apply Htruthy; auto).
  done.
Qed.

End WithBackend.
End CompletionFacts.

(** X16. Completing one event sends at most six requests to the backend,
    and it records at most as many changes as it sent requests. *)
Theorem complete_translations_requests
    (backend : Translate.Backend) (event : Event) (n : nat) :
  let r := Translate.complete_translations backend event n in
  (n ≤ r.2 ≤ n + 6)%nat ∧ (length r.1.2 ≤ r.2 - n)%nat.
Proof.
  cbv zeta. unfold Translate.complete_translations.
  destruct (if truthy _ then _ else _) as [[st sd] sl].
  unfold Translate.bind, Translate.ret.
  rewrite TranslateFacts.for_each_lang_cons.
  pose proof (CompletionFacts.complete_lang_requests backend st sd sl "en"
                (default ∅ (ev_translations event)) [] n) as H1.
  destruct (Translate.complete_lang backend st sd sl "en" _ n)
    as [[trans1 ch1] n1]. simpl in H1. cbv beta iota.
  rewrite TranslateFacts.for_each_lang_cons.
  pose proof (CompletionFacts.complete_lang_requests backend st sd sl "ar"
                trans1 ch1 n1) as H2.
  destruct (Translate.complete_lang backend st sd sl "ar" _ n1)
    as [[trans2 ch2] n2]. simpl in H2 |- *. lia.
Qed.

(** X17. An event whose English and Arabic title, description and location
    name are all present and not empty is left exactly as it is: no request
    is sent and no change is recorded. *)
Theorem complete_translations_fixed_point
    (backend : Translate.Backend) (event : Event) (n : nat) :
  (∀ lang field, Translate.target_slot lang field →
     ∃ v, Translate.event_slot event lang field = Some v ∧ v ≠ []) →
  Translate.complete_translations backend event n = ((event, []), n).
Proof.
  intros Hfull.
  assert (∃ trans, ev_translations event = Some trans) as [trans Htrans].
  { destruct (Hfull "en"%string "title"%string) as (v & Hv & _);
      [split; auto|].
    unfold Translate.event_slot in Hv.
    destruct (ev_translations event); [eauto|done]. }
  unfold Translate.complete_translations.
  destruct (if truthy _ then _ else _) as [[st sd] sl].
  unfold Translate.bind, Translate.ret.
  assert (∀ lang, lang = "en"%string ∨ lang = "ar"%string →
            ∀ field, field = "title"%string ∨ field = "desc"%string
                     ∨ field = "locationName"%string →
              ∃ v, Translate.slot (default ∅ (ev_translations event)) lang field
                   = Some v ∧ v ≠ []) as Hslots.
  { intros lang Hl field Hf. by apply Hfull. }
  rewrite TranslateFacts.for_each_lang_cons.
  rewrite CompletionFacts.complete_lang_skip by (apply Hslots; auto).
  cbv beta iota. rewrite TranslateFacts.for_each_lang_cons.
  rewrite CompletionFacts.complete_lang_skip by (apply Hslots; auto).
  simpl. rewrite Htrans. simpl. destruct event. simpl in *. by subst.
Qed.

Lemma complete_translations_fixed_point_witness :
  let event := (Translate.complete_translations sample_backend sample_event O).1.1 in
  Translate.complete_translations sample_backend event 5%nat = ((event, []), 5%nat).
Proof.
  cbv zeta. apply complete_translations_fixed_point.
  intros lang field [[-> | ->] [-> | [-> | ->]]]; eexists;
    (split; [vm_compute; reflexivity|discriminate]).
Defined.

(** ** Translations of new content *)

Module NewContentFacts.
Import Translate NewContent.

Lemma slot_set_text t l f v l' f' :
  slot (set_text t l f v) l' f'
  = if bool_decide (l = l' ∧ f = f') then Some v else slot t l' f'.
Proof.
  unfold slot, set_text.
  destruct (decide (l = l')) as [<-|Hl].
  - rewrite lookup_insert_eq. simpl.
    destruct (decide (f = f')) as [<-|Hf].
    + rewrite lookup_insert_eq. by rewrite bool_decide_eq_true_2.
    + rewrite lookup_insert_ne by done.
      rewrite bool_decide_eq_false_2 by (by intros [_ ?]).
      by destruct (t !! l).
  - rewrite lookup_insert_ne by done.
    by rewrite bool_decide_eq_false_2 by (by intros [? _]).
Qed.

Lemma original_lang_cases title :
  original_lang title = u "zh" ∨ original_lang title = u "ar"
  ∨ original_lang title = u "en".
Proof.
  unfold original_lang.
  destruct (existsb _ title); [by left|].
  destruct (existsb _ title); auto.
Qed.

Section WithBackend.
Variable available : bool.
Variable backend : Backend.

(** [reply] is no reply, or a reply of the backend. *)
Definition from_backend (reply : option pystr) : Prop :=
  reply = None ∨ ∃ m text code, backend m text code = reply.

Lemma translate_text_from_backend text lang n :
  from_backend (translate_text available backend text lang n).1
  ∧ (n ≤ (translate_text available backend text lang n).2 ≤ S n)%nat
  ∧ (available = false → translate_text available backend text lang n = (None, n)).
Proof.
  unfold translate_text, Translate.translate_text, ret.
  destruct available; [|by repeat split; [left|simpl; lia..]].
  destruct (lang_map lang); simpl.
  - split; [right; eauto|]. split; [lia|done].
  - split; [by left|]. split; [lia|done].
Qed.

Section Preservation.
Variable P : gmap string trans_entry → Prop.
Variable target : string.
Hypothesis P_set : ∀ t f v m text code,
  P t → v ≠ [] → backend m text code = Some v → P (set_text t target f v).

Lemma store_reply_preserves t f reply :
  P t → from_backend reply → P (store_reply t target f reply).
Proof.
  intros Ht Hreply. unfold store_reply.
  destruct reply as [v|]; [|done].
  destruct (truthy v) eqn:Hv; [|done].
  destruct Hreply as [|(m & text & code & Hb)]; [done|].
  eapply P_set; [done|by destruct v|exact Hb].
Qed.

Lemma translate_into_preserves title desc loc t n :
  P t →
  P (translate_into available backend title desc loc target t n).1
  ∧ (n ≤ (translate_into available backend title desc loc target t n).2
     ≤ n + 3)%nat.
Proof.
  intros Ht. unfold translate_into, bind, ret.
  destruct (translate_text_from_backend title target n) as (Hr1 & Hn1 & _).
  destruct (translate_text available backend title target n) as [r1 n1].
  simpl in Hr1, Hn1.
  set (desc_short := if (200 <? length desc)%nat then _ else _).
  destruct (translate_text_from_backend desc_short target n1) as (Hr2 & Hn2 & _).
  destruct (translate_text available backend desc_short target n1) as [r2 n2].
  simpl in Hr2, Hn2.
  pose proof (store_reply_preserves t "title" r1 Ht Hr1) as H1.
  pose proof (store_reply_preserves _ "desc" r2 H1 Hr2) as H2.
  destruct (truthy loc); [|simpl; split; [done|lia]].
  destruct (translate_text_from_backend loc target n2) as (Hr3 & Hn3 & _).
  destruct (translate_text available backend loc target n2) as [r3 n3].
  simpl in Hr3, Hn3 |- *.
  split; [by apply store_reply_preserves|lia].
Qed.

End Preservation.

Lemma over_languages_cons title desc loc original target rest t n :
  over_languages available backend title desc loc original (target :: rest) t n
  = if bool_decide (u target = original)
    then over_languages available backend title desc loc original rest t n
    else
      let r := translate_into available backend title desc loc target t n in
      over_languages available backend title desc loc original rest r.1 r.2.
Proof.
  cbn [over_languages]. destruct (bool_decide _); [done|].
  unfold bind. by destruct (translate_into _ _ _ _ _ _ _ _).
Qed.

Lemma over_languages_preserves (P : gmap string trans_entry → Prop)
    title desc loc original langs t n :
  (∀ target, target ∈ langs → u target ≠ original →
     ∀ t f v m text code,
       P t → v ≠ [] → backend m text code = Some v →
       P (set_text t target f v)) →
  P t →
  P (over_languages available backend title desc loc original langs t n).1
  ∧ (n ≤ (over_languages available backend title desc loc original langs t n).2
     ≤ n + 3 * length (filter (λ l, u l ≠ original) langs))%nat.
Proof.
  revert t n. induction langs as [|target rest IH]; intros t n Hset Ht.
  - simpl. split; [done|lia].
  - rewrite over_languages_cons, filter_cons.
    destruct (bool_decide_reflect (u target = original)) as [Heq|Hne].
    + rewrite decide_False by (by intros ?).
      apply IH; [|done]. intros tg Htg. apply Hset. by right.
    + rewrite decide_True by done. cbv zeta.
      destruct (translate_into_preserves P target
                  (Hset target ltac:(left) Hne) title desc loc t n Ht)
        as [HP Hn].
      destruct (translate_into available backend title desc loc target t n)
        as [t1 n1]. simpl in HP, Hn |- *.
      destruct (IH t1 n1) as [HP' Hn']; [|done|].
      * intros tg Htg. apply Hset. by right.
      * split; [done|]. simpl in Hn'. lia.
Qed.

End WithBackend.
End NewContentFacts.

(** X18. The translations of new content start from the original texts
    under zh, en and ar.  In the result every text is the original one or a
    non-empty reply of the backend; the texts under the detected original
    language are the original ones; when the library is not available or
    the backend fails on every request, the result is the original texts
    under all three languages; and at most six requests are sent. *)
Theorem create_translated_content_fallback
    (available : bool) (backend : Translate.Backend)
    (title desc location_name : pystr) (n : nat) :
  let r := NewContent.create_translated_content available backend
             title desc location_name n in
  let original := NewContent.untranslated title desc location_name in
  (∀ lang, lang ∈ LANGUAGES →
     Translate.slot original lang "title" = Some title
     ∧ Translate.slot original lang "desc" = Some desc
     ∧ Translate.slot original lang "locationName" = Some location_name)
  ∧ (∀ lang field,
       Translate.slot r.1 lang field = Translate.slot original lang field
       ∨ ∃ v m text code,
           Translate.slot r.1 lang field = Some v ∧ v ≠ []
           ∧ backend m text code = Some v)
  ∧ (∀ lang field,
       u lang = original_lang title →
       Translate.slot r.1 lang field = Translate.slot original lang field)
  ∧ (available = false ∨ (∀ m text code, backend m text code = None) →
     r.1 = original)
  ∧ (n ≤ r.2 ≤ n + 6)%nat.
Proof.
  cbv zeta. split.
  { intros lang Hlang. unfold LANGUAGES in Hlang.
    repeat (apply elem_of_cons in Hlang as [->|Hlang]; [by vm_compute|]).
    by apply elem_of_nil in Hlang. }
  unfold NewContent.create_translated_content.
  destruct available;
    [change (negb true) with false|change (negb false) with true]; cbv iota.
  2: { unfold Translate.ret. simpl. repeat split; auto; lia. }
  set (original := NewContent.untranslated title desc location_name).
  set (run := NewContent.over_languages true backend title desc location_name
                (original_lang title) LANGUAGES original n).
  split; [|split; [|split]].
  - intros lang field.
    apply (NewContentFacts.over_languages_preserves true backend
             (λ t, Translate.slot t lang field = Translate.slot original lang field
                   ∨ ∃ v m text code,
                       Translate.slot t lang field = Some v ∧ v ≠ []
                       ∧ backend m text code = Some v)); [|by left].
    intros target _ _ t f v m text code Ht Hv Hb.
    rewrite NewContentFacts.slot_set_text.
    destruct (bool_decide _); [|done]. right. by exists v, m, text, code.
  - intros lang field Hlang.
    apply (NewContentFacts.over_languages_preserves true backend
             (λ t, Translate.slot t lang field = Translate.slot original lang field));
      [|done].
    intros target _ Hne t f v m text code Ht _ _.
    rewrite NewContentFacts.slot_set_text.
    rewrite bool_decide_eq_false_2; [done|].
    intros [-> _]. by apply Hne.
  - intros [|Hfail]; [done|].
    apply (NewContentFacts.over_languages_preserves true backend
             (λ t, t = original)); [|done].
    intros target _ _ t f v m text code _ _ Hb. by rewrite Hfail in Hb.
  - destruct (NewContentFacts.over_languages_preserves true backend
                (λ _, True) title desc location_name (original_lang title)
                LANGUAGES original n) as [_ Hn]; [done|done|].
    fold run in Hn.
    assert (length (filter (λ l, u l ≠ original_lang title) LANGUAGES) = 2%nat)
      as Hlen.
    { destruct (NewContentFacts.original_lang_cases title) as [-> | [-> | ->]];
        by vm_compute. }
    rewrite Hlen in Hn. unfold run in *. lia.
Qed.

Example create_translated_content_samples :
  (NewContent.create_translated_content true failing_backend
     (u "德黑兰空袭") (u "德黑兰遭到空袭") (u "德黑兰") O).1
  = NewContent.untranslated (u "德黑兰空袭") (u "德黑兰遭到空袭") (u "德黑兰")
  ∧ let r := (NewContent.create_translated_content true sample_backend
                (u "Tehran air raid") (u "Air raid on Tehran") (u "Tehran") O) in
    Translate.slot r.1 "en" "title" = Some (u "Tehran air raid")
    ∧ Translate.slot r.1 "zh" "title" = Some (u "Tzh-CN:Tehran air raid")
    ∧ Translate.slot r.1 "ar" "locationName" = Some (u "Tar:Tehran")
    ∧ r.2 = 6%nat.
Proof. vm_compute. done. Qed.

(** ** Entry point of translate-existing-events.py *)

Module TranslateMainFacts.
Import Translate TranslateMain.

Lemma filter_none {A} (P : A → Prop) `{∀ x, Decision (P x)} (l : list A) :
  (∀ x, x ∈ l → ¬ P x) → filter P l = [].
Proof.
  induction l as [|x l IH]; intros Hnone; [done|].
  rewrite filter_cons, decide_False by (apply Hnone; left).
  apply IH. intros y Hy. apply Hnone. by right.
Qed.

Lemma count_step_sum c event :
  let c' := count_step c event in
  (c'.1.1 + c'.1.2 + c'.2
   = c.1.1 + c.1.2 + c.2
     + (if has_title event "en" && has_title event "ar" then 0 else 1))%nat.
Proof.
  destruct c as [[b e] a]. unfold count_step.
  destruct (has_title event "en"), (has_title event "ar"); simpl; lia.
Qed.

Lemma analyse_sum_from events c :
  let c' := fold_left count_step events c in
  (c'.1.1 + c'.1.2 + c'.2
   = c.1.1 + c.1.2 + c.2
     + length (filter (λ e, has_title e "en" && has_title e "ar" = false)
                      events))%nat.
Proof.
  revert c. induction events as [|event events IH]; intros c; simpl; [lia|].
  rewrite IH, count_step_sum, filter_cons.
  destruct (has_title event "en" && has_title event "ar"); simpl; lia.
Qed.

Section WithBackend.
Variable backend : Backend.

Lemma process_cons event rest n :
  process backend (event :: rest) n
  = if has_title event "en" && has_title event "ar"
    then let r := process backend rest n in (event :: r.1, r.2)
    else
      let c := complete_translations backend event n in
      let r := process backend rest c.2 in
      (c.1.1 :: r.1, r.2).
Proof.
  cbn [process]. unfold bind, ret.
  destruct (has_title event "en" && has_title event "ar").
  - by destruct (process backend rest n).
  - destruct (complete_translations backend event n) as [c n1]. simpl.
    by destruct (process backend rest n1).
Qed.

Lemma process_processed events n :
  Forall2 processed events (process backend events n).1.
Proof.
  revert n. induction events as [|event events IH]; intros n.
  - constructor.
  - rewrite process_cons.
    destruct (has_title event "en" && has_title event "ar") eqn:Hboth.
    + simpl. constructor; [|apply IH].
      left. by apply andb_true_iff in Hboth as [? ?].
    + simpl. constructor; [|apply IH].
      right. split; [by apply andb_false_iff|].
      apply TranslateFacts.complete_translations_result.
Qed.

End WithBackend.
End TranslateMainFacts.

(** X19. A run of translate-existing-events.py rewrites the store only
    when some event lacks an English or an Arabic title and the answer at
    the prompt, stripped and lower-cased, is "y"; otherwise it leaves the
    store untouched and exits with status 0 (status 1 when the store or the
    backup cannot be used).  What it writes has one event per stored event,
    in order: an event that has both titles is written back as it is, even
    if other texts are missing; any other event differs from the stored one
    only by texts put into missing or empty slots of its translations. *)
Theorem translate_main_outcome
    (lower : pystr → pystr) (backend : Translate.Backend)
    (store : option (list Event)) (backup_ok : bool) (response : pystr)
    (write_ok : bool) :
  let run := TranslateMain.main lower backend store backup_ok response write_ok in
  (lower (strip response) ≠ u "y" → store_effect run = Untouched)
  ∧ ((∀ events e, store = Some events → e ∈ events →
        TranslateMain.has_title e "en" = true
        ∧ TranslateMain.has_title e "ar" = true) →
     store_effect run = Untouched)
  ∧ (store_effect run = Untouched →
     exit_code run = if bool_decide (is_Some store) && backup_ok then 0 else 1)
  ∧ (∀ written, store_effect run = Overwritten written →
       exit_code run = 0
       ∧ ∃ events, store = Some events
                   ∧ Forall2 TranslateMain.processed events written).
Proof.
  cbv zeta. unfold TranslateMain.main.
  destruct store as [events|].
  2: { simpl. by repeat split. }
  destruct backup_ok;
    [change (negb true) with false|change (negb false) with true]; cbv iota.
  2: { simpl. by repeat split. }
  pose proof (TranslateMainFacts.analyse_sum_from events (O, O, O)) as Hsum.
  fold (TranslateMain.analyse events) in Hsum.
  destruct (TranslateMain.analyse events) as [[mb me] ma]. simpl in Hsum.
  destruct (Nat.eqb_spec (mb + me + ma) 0) as [Hzero|Hsome].
  { by repeat split. }
  assert (¬ (∀ events0 e, Some events = Some events0 → e ∈ events0 →
               TranslateMain.has_title e "en" = true
               ∧ TranslateMain.has_title e "ar" = true)) as Hincomplete.
  { intros Hall. apply Hsome. rewrite Hsum.
    assert (filter (λ e, TranslateMain.has_title e "en"
                         && TranslateMain.has_title e "ar" = false) events
            = []) as ->; [|done].
    apply TranslateMainFacts.filter_none. intros e He.
    destruct (Hall events e eq_refl He) as [-> ->]. done. }
  destruct (bool_decide_reflect (lower (strip response) = u "y")) as [Hy|Hn];
    [change (negb true) with false|change (negb false) with true]; cbv iota.
  2: { by repeat split. }
  split; [done|]. split; [done|].
  destruct write_ok; simpl.
  - split; [done|]. intros written [= <-]. split; [done|].
    exists events. split; [done|].
    apply TranslateMainFacts.process_processed.
  - by split.
Qed.

(** With one complete-looking event and one event without translations,
    only the second is completed. *)
Example translate_main_sample :
  ∃ completed,
    TranslateMain.main ascii_lower sample_backend
      (Some [titled_event; typed_event "strike" "iran" "德黑兰空袭"])
      true (u " Y ") true
    = mkOutcome 0 (Overwritten [titled_event; completed])
    ∧ Translate.event_slot completed "en" "title" = Some (u "Ten:德黑兰空袭")
    ∧ Translate.event_slot titled_event "en" "desc" = None.
Proof. eexists. vm_compute. done. Qed.

(** ** Event normaliser *)

Lemma search_types_in_table table text ty :
  search_types table text = Some ty → ty ∈ table.*1.
Proof.
  induction table as [|[ty0 pats] table IH]; simpl; [done|].
  destruct (search_patterns pats text).
  - intros [= ->]. left.
  - intros H. right. by apply IH.
Qed.

Lemma classify_event_type_in_types lower text :
  classify_event_type lower text
  ∈ [u "strike"; u "blockade"; u "airspace"; u "intel"; u "diplomatic"].
Proof.
  unfold classify_event_type.
  destruct (search_types EVENT_TYPE_PATTERNS (lower text)) as [ty|] eqn:Hs.
  - apply search_types_in_table in Hs. exact Hs.
  - do 3 right. left.
Qed.

Lemma create_translated_content_slots available backend title desc loc n
    lang field :
  lang ∈ LANGUAGES →
  field = "title"%string ∨ field = "desc"%string ∨ field = "locationName"%string →
  is_Some (Translate.slot
             (NewContent.create_translated_content available backend
                title desc loc n).1 lang field).
Proof.
  intros Hlang Hfield.
  assert (is_Some (Translate.slot (NewContent.untranslated title desc loc)
                     lang field)) as Hinit.
  { unfold LANGUAGES in Hlang.
    repeat (apply elem_of_cons in Hlang as [->|Hlang];
            [destruct Hfield as [-> | [-> | ->]]; eexists;
             unfold NewContent.untranslated, Translate.slot;
             by simplify_map_eq|]).
    by apply elem_of_nil in Hlang. }
  unfold NewContent.create_translated_content.
  destruct available;
    [change (negb true) with false|change (negb false) with true]; cbv iota;
    [|done].
  refine (proj1 (NewContentFacts.over_languages_preserves true backend
           (λ t, is_Some (Translate.slot t lang field)) _ _ _ _ _ _ _ _ Hinit)).
  intros target _ _ t f v m text code Ht _ _.
  rewrite NewContentFacts.slot_set_text. by destruct (bool_decide _).
Qed.

Lemma event_slot_copied translated lang field event :
  lang ∈ LANGUAGES →
  field = "title"%string ∨ field = "desc"%string ∨ field = "locationName"%string →
  ev_translations event
  = Some {[ "zh"%string := Normalize.copy_entry translated "zh";
            "en"%string := Normalize.copy_entry translated "en";
            "ar"%string := Normalize.copy_entry translated "ar" ]} →
  Translate.event_slot event lang field
  = Some (Normalize.text_of translated lang field).
Proof.
  intros Hlang Hfield Htr. unfold Translate.event_slot, Translate.slot.
  rewrite Htr. simpl. unfold LANGUAGES in Hlang.
  repeat (apply elem_of_cons in Hlang as [->|Hlang];
          [destruct Hfield as [-> | [-> | ->]];
           by simplify_map_eq|]).
  by apply elem_of_nil in Hlang.
Qed.

(** X20. The event created from a raw message has the same value under
    [id] and [tweetId], which is therefore its identity key: the [id] of
    the message when that is not empty.  Its type is one of the five event
    types and it is not flagged as new.  Its translations hold, for zh, en
    and ar, the title, the description and the location name that the
    translation step produced, none of them missing, and its top-level
    title, description and location name are those of zh. *)
Theorem parse_tweet_to_event_well_formed
    (lower upper hash_text iso_time : pystr → pystr) (available : bool)
    (backend : Translate.Backend) (raw : Normalize.RawTweet) (config : Config)
    (n : nat) :
  let event :=
    (Normalize.parse_tweet_to_event lower upper hash_text iso_time available
       backend raw config n).1 in
  let text := Ticker.tweet_text (Normalize.rt_tweet raw) in
  let translated :=
    (NewContent.create_translated_content available backend
       (parse_tweet_to_event_title text) text
       (Normalize.display_location upper (extract_location_from_text text)
          (detect_country lower text config)) n).1 in
  ev_tweetId event = ev_id event
  ∧ ev_id event = Some (identity_key event)
  ∧ (∀ v, tw_id (Normalize.rt_tweet raw) = Some v → pyval_truthy v = true →
       identity_key event = v)
  ∧ (∃ ty, ev_type event = Some ty
           ∧ ty ∈ [u "strike"; u "blockade"; u "airspace"; u "intel";
                   u "diplomatic"])
  ∧ ev_isNew event = Some false
  ∧ (∀ lang field,
       lang ∈ LANGUAGES →
       field = "title"%string ∨ field = "desc"%string
       ∨ field = "locationName"%string →
       is_Some (Translate.event_slot event lang field)
       ∧ Translate.event_slot event lang field
         = Translate.slot translated lang field)
  ∧ ev_title event = Translate.event_slot event "zh" "title"
  ∧ ev_desc event = Translate.event_slot event "zh" "desc"
  ∧ ev_locationName event = Translate.event_slot event "zh" "locationName".
Proof.
  cbv zeta. unfold Normalize.parse_tweet_to_event, Translate.bind, Translate.ret.
  set (text := Ticker.tweet_text (Normalize.rt_tweet raw)).
  set (loc := Normalize.display_location upper _ _).
  pose proof (λ lang field, create_translated_content_slots available backend
                (parse_tweet_to_event_title text) text loc n lang field)
    as Hslots.
  destruct (NewContent.create_translated_content available backend
              (parse_tweet_to_event_title text) text loc n)
    as [translated n'].
  cbn [fst snd] in *.
  set (event := {| ev_id := _ |}).
  assert (∀ lang field,
            lang ∈ LANGUAGES →
            field = "title"%string ∨ field = "desc"%string
            ∨ field = "locationName"%string →
            Translate.event_slot event lang field
            = Some (Normalize.text_of translated lang field)) as Hcopied.
  { intros lang field Hl Hf. by apply event_slot_copied. }
  split; [done|]. split; [done|]. split.
  { intros v Hv Ht. unfold identity_key. simpl.
    unfold Normalize.tweet_id, Normalize.or_val. by rewrite Hv, Ht. }
  split.
  { eexists. split; [done|]. apply classify_event_type_in_types. }
  split; [done|]. split.
  { intros lang field Hl Hf. rewrite Hcopied by done. split; [done|].
    destruct (Hslots lang field Hl Hf) as [v Hv].
    unfold Normalize.text_of. by rewrite Hv. }
  split; [|split]; symmetry; apply Hcopied; auto; unfold LANGUAGES; left.
Qed.

(** A message in English with an unavailable translation library: all
    three languages carry the English texts. *)
Example parse_tweet_to_event_sample :
  let event :=
    (Normalize.parse_tweet_to_event ascii_lower ascii_lower (λ _, u "0")
       (λ t, t) false failing_backend
       (raw_tweet "900" "2024-02-01T00:00:00+00:00"
          "Airstrike reported near Tehran overnight") no_override O).1 in
  identity_key event = PStr (u "900")
  ∧ ev_type event = Some (u "strike")
  ∧ ev_country event = Some (u "iran")
  ∧ ev_location event = Some (3200, 5300)
  ∧ ev_title event = Some (u "Airstrike reported near Tehran overnight")
  ∧ ev_url event = Some (u "https://twitter.com/IDF/status/900")
  ∧ Translate.event_slot event "ar" "locationName" = Some (u "iran").
Proof. vm_compute. done. Qed.
